(** * billy-cgofuse: the cgofuse-to-Billy adapter of [lib.go]

    The wrapper receives the callbacks of the FUSE driver (cgofuse) and
    forwards them to a Billy filesystem.  This development embeds
    [lib.go] shallowly:

    - the wrapper's fields ([fdMtx], [fileDescriptors], [nextFd],
      [writeLocks]) form a record that is threaded through every
      method;
    - every call that leaves the package (a method of the underlying
      Billy filesystem, of an open Billy file, or the driver's [fill]
      callback) is a node of a call tree, answered by the environment;
    - a method returns, panics (nil dereference) or blocks on a mutex.

    Callbacks run one after the other: a session is a list of callbacks,
    each run to its end before the next starts.  What the two kinds of
    mutex buy under concurrency is visible here only as the state of
    the mutexes and as two ghost flags: [unguarded], for an access to
    the table outside the table lock, and [torn], for a critical section
    that ends with the two maps on different keys.

    The definitions come first, the theorems after them. *)

From Stdlib Require Import ZArith Ascii String List Lia.
From stdpp Require Import base option gmap.

Open Scope Z_scope.

(** ** Machine integers *)

(** [uint64] and [uint32] arithmetic wraps around. *)
Definition uint64 (z : Z) : Z := z mod 2 ^ 64.
Definition uint32 (z : Z) : Z := z mod 2 ^ 32.

(** [int64] arithmetic wraps around in two's complement. *)
Definition int64 (z : Z) : Z := (z + 2 ^ 63) mod 2 ^ 64 - 2 ^ 63.

(** Go's unary [^] on a [uint64]. *)
Definition bitnot64 (z : Z) : Z := uint64 (Z.lnot z).

(** [^uint64(0)], the driver's "no handle" value. *)
Definition no_handle : Z := bitnot64 0.

(** ** What the imported packages provide *)

(** The errno values and the directory bit of package [fuse], the open
    flags of package [os].  Their values depend on the platform, so they
    are parameters of the development. *)
Class Platform := {
  fuse_EPERM : Z;
  fuse_ENOENT : Z;
  fuse_EIO : Z;
  fuse_EEXIST : Z;
  fuse_EINVAL : Z;
  fuse_ENOSYS : Z;
  fuse_S_IFDIR : Z;
  os_O_RDONLY : Z;
  os_O_WRONLY : Z;
  os_O_RDWR : Z;
  os_O_CREATE : Z;
  io_SeekStart : Z
}.

(** Non-nil values of Go's [error] interface, with the classifiers that
    [convertError] and [Read] apply to them.  A Go [error] is an
    [option error]: [None] is [nil]. *)
Class GoError := {
  error : Type;
  error_eq_dec :: EqDecision error;
  io_EOF : error;
  os_ErrInvalid : error;
  os_ErrClosed : error;
  os_IsExist : error -> bool;
  os_IsNotExist : error -> bool;
  os_IsPermission : error -> bool;
  errors_Is : error -> error -> bool
}.

(** Open files of the Billy filesystem.  [is_WriterAt fh] is the type
    assertion [fh.(io.WriterAt)]. *)
Class BillyFile := {
  File : Type;
  is_WriterAt : File -> bool
}.

(** [time.Time], as far as package [fuse] looks at it. *)
Record Time := { Unix : Z; Nanosecond : Z }.

(** [fuse.Timespec], with [fuse.NewTimespec] and [Timespec.Time]. *)
Record Timespec := { Sec : Z; Nsec : Z }.

Definition NewTimespec (t : Time) : Timespec :=
  {| Sec := Unix t; Nsec := Nanosecond t |}.

(** [Timespec.Time] is [time.Unix(ts.Sec, ts.Nsec)]: nanoseconds
    outside [0, 10^9) are carried into the seconds, and that addition is
    an [int64] addition. *)
Definition Timespec_Time (ts : Timespec) : Time :=
  {| Unix := int64 (Sec ts + Nsec ts / 1000000000);
     Nanosecond := Nsec ts mod 1000000000 |}.

Definition Timespec_zero : Timespec := {| Sec := 0; Nsec := 0 |}.

(** [fuse.Stat_t]. *)
Record Stat_t := {
  st_Dev : Z;
  st_Ino : Z;
  st_Mode : Z;
  st_Nlink : Z;
  st_Uid : Z;
  st_Gid : Z;
  st_Rdev : Z;
  st_Size : Z;
  st_Atim : Timespec;
  st_Mtim : Timespec;
  st_Ctim : Timespec;
  st_Blksize : Z;
  st_Blocks : Z;
  st_Birthtim : Timespec;
  st_Flags : Z
}.

(** The zero value [fuse.Stat_t{}]. *)
Definition Stat_zero : Stat_t :=
  {| st_Dev := 0; st_Ino := 0; st_Mode := 0; st_Nlink := 0; st_Uid := 0;
     st_Gid := 0; st_Rdev := 0; st_Size := 0; st_Atim := Timespec_zero;
     st_Mtim := Timespec_zero; st_Ctim := Timespec_zero; st_Blksize := 0;
     st_Blocks := 0; st_Birthtim := Timespec_zero; st_Flags := 0 |}.

(** [os.FileInfo]: the answers of its methods. *)
Record FileInfo := {
  Name : string;
  Size : Z;
  Mode : Z;
  ModTime : Time;
  IsDir : bool
}.

(** [sync.Mutex]. *)
Record Mutex := { locked : bool }.

Definition new_Mutex : Mutex := {| locked := false |}.
Definition held_Mutex : Mutex := {| locked := true |}.

(** Which optional Billy interfaces the underlying filesystem
    implements: the type assertions [w.underlying.(billy.Dir)],
    [.(billy.Symlink)] and [.(billy.Change)]. *)
Record Capabilities := {
  has_Dir : bool;
  has_Symlink : bool;
  has_Change : bool
}.

Section Wrapper.

Context `{PF : Platform} `{GE : GoError} `{BF : BillyFile}.

(** ** Calls that leave the package *)

Inductive call : Type :=
  (* billy.Basic *)
  | Basic_OpenFile (path : string) (flag : Z) (perm : Z)
  | Basic_Stat (path : string)
  | Basic_Remove (path : string)
  | Basic_Rename (oldpath newpath : string)
  (* billy.Dir *)
  | Dir_MkdirAll (path : string) (perm : Z)
  | Dir_ReadDir (path : string)
  (* billy.Symlink *)
  | Symlink_Symlink (target newpath : string)
  | Symlink_Readlink (path : string)
  (* billy.Change *)
  | Change_Chmod (path : string) (mode : Z)
  | Change_Chown (path : string) (uid gid : Z)
  | Change_Chtimes (path : string) (atime mtime : Time)
  (* billy.File *)
  | File_Truncate (fh : File) (size : Z)
  | File_ReadAt (fh : File) (buff : list Byte.byte) (ofst : Z)
  | File_WriteAt (fh : File) (buff : list Byte.byte) (ofst : Z)
  | File_Seek (fh : File) (ofst : Z) (whence : Z)
  | File_Write (fh : File) (buff : list Byte.byte)
  | File_Close (fh : File)
  (* the fill callback that the driver hands to Readdir *)
  | fill (name : string) (stat : Stat_t) (ofst : Z).

(** What a call gives back.  A Go result [(v, err)] whose [v] is only
    read when [err == nil] is a sum; [ReadAt] also gives back the
    buffer it has filled. *)
Definition answer (c : call) : Type :=
  match c with
  | Basic_OpenFile _ _ _ => File + error
  | Basic_Stat _ => FileInfo + error
  | Dir_ReadDir _ => list FileInfo + error
  | Symlink_Readlink _ => string + error
  | File_ReadAt _ _ _ => list Byte.byte * Z * option error
  | File_WriteAt _ _ _ | File_Seek _ _ _ | File_Write _ _ =>
      Z * option error
  | fill _ _ _ => bool
  | _ => option error
  end%type.

(** A computation is a tree of calls. *)
Inductive prog (A : Type) : Type :=
  | Ret (a : A)
  | Do (c : call) (k : answer c -> prog A).

#[global] Arguments Ret {A} a.
#[global] Arguments Do {A} c k.

Fixpoint prog_bind {A B} (p : prog A) (f : A -> prog B) : prog B :=
  match p with
  | Ret a => f a
  | Do c k => Do c (fun r => prog_bind (k r) f)
  end.

(** How a method ends. *)
Inductive outcome (A : Type) : Type :=
  | Returns (a : A)
  | Panics
  | Blocks.

#[global] Arguments Returns {A} a.
#[global] Arguments Panics {A}.
#[global] Arguments Blocks {A}.

(** ** The wrapper *)

(** The struct [wrapper].  [writeLocks] holds pointers: a
    [*sync.Mutex] is an index into [mutexes], the mutexes allocated so
    far by [new(sync.Mutex)], and a key that is absent reads as the nil
    pointer.  [unguarded] is a ghost field: it is set when
    [fileDescriptors], [nextFd] or [writeLocks] is read or written while
    [fdMtx] is not held.  [torn] is a ghost field too: it is set when
    [fdMtx] is unlocked while the two maps do not have the same keys,
    that is, when a critical section ends with a file that has no write
    lock or a write lock that has no file. *)
Record wrapper := {
  underlying : Capabilities;
  fdMtx : Mutex;
  fileDescriptors : gmap Z File;
  nextFd : Z;
  writeLocks : gmap Z nat;
  mutexes : list Mutex;
  unguarded : bool;
  torn : bool
}.

Definition New (caps : Capabilities) : wrapper :=
  {| underlying := caps; fdMtx := new_Mutex; fileDescriptors := ∅;
     nextFd := 0; writeLocks := ∅; mutexes := []; unguarded := false;
     torn := false |}.

Definition set_fdMtx (m : Mutex) (w : wrapper) : wrapper :=
  {| underlying := underlying w; fdMtx := m;
     fileDescriptors := fileDescriptors w; nextFd := nextFd w;
     writeLocks := writeLocks w; mutexes := mutexes w;
     unguarded := unguarded w; torn := torn w |}.

Definition set_fileDescriptors (fds : gmap Z File) (w : wrapper) : wrapper :=
  {| underlying := underlying w; fdMtx := fdMtx w;
     fileDescriptors := fds; nextFd := nextFd w;
     writeLocks := writeLocks w; mutexes := mutexes w;
     unguarded := unguarded w; torn := torn w |}.

Definition set_nextFd (n : Z) (w : wrapper) : wrapper :=
  {| underlying := underlying w; fdMtx := fdMtx w;
     fileDescriptors := fileDescriptors w; nextFd := n;
     writeLocks := writeLocks w; mutexes := mutexes w;
     unguarded := unguarded w; torn := torn w |}.

Definition set_writeLocks (wl : gmap Z nat) (w : wrapper) : wrapper :=
  {| underlying := underlying w; fdMtx := fdMtx w;
     fileDescriptors := fileDescriptors w; nextFd := nextFd w;
     writeLocks := wl; mutexes := mutexes w;
     unguarded := unguarded w; torn := torn w |}.

Definition set_unguarded (b : bool) (w : wrapper) : wrapper :=
  {| underlying := underlying w; fdMtx := fdMtx w;
     fileDescriptors := fileDescriptors w; nextFd := nextFd w;
     writeLocks := writeLocks w; mutexes := mutexes w;
     unguarded := b; torn := torn w |}.

Definition set_torn (b : bool) (w : wrapper) : wrapper :=
  {| underlying := underlying w; fdMtx := fdMtx w;
     fileDescriptors := fileDescriptors w; nextFd := nextFd w;
     writeLocks := writeLocks w; mutexes := mutexes w;
     unguarded := unguarded w; torn := b |}.

Definition set_mutexes (ms : list Mutex) (w : wrapper) : wrapper :=
  {| underlying := underlying w; fdMtx := fdMtx w;
     fileDescriptors := fileDescriptors w; nextFd := nextFd w;
     writeLocks := writeLocks w; mutexes := ms;
     unguarded := unguarded w; torn := torn w |}.

(** A method body: wrapper state in, call tree out. *)
Definition M (A : Type) : Type := wrapper -> prog (outcome A * wrapper).

Definition ret {A} (a : A) : M A := fun w => Ret (Returns a, w).

Definition bind {A B} (m : M A) (f : A -> M B) : M B :=
  fun w =>
    prog_bind (m w) (fun ow =>
      match ow with
      | (Returns a, w') => f a w'
      | (Panics, w') => Ret (Panics, w')
      | (Blocks, w') => Ret (Blocks, w')
      end).

Definition panic {A} : M A := fun w => Ret (Panics, w).
Definition block {A} : M A := fun w => Ret (Blocks, w).

(** Performs a call and hands back its answer. *)
Definition ask (c : call) : M (answer c) :=
  fun w => Do c (fun r => Ret (Returns r, w)).

(** [defer d; body]: [d] runs when [body] returns or panics. *)
Definition defer {A} (d : M unit) (body : M A) : M A :=
  fun w =>
    prog_bind (body w) (fun ow =>
      match ow with
      | (Blocks, w') => Ret (Blocks, w')
      | (o, w') =>
          prog_bind (d w') (fun dw =>
            match dw with
            | (Returns _, w'') => Ret (o, w'')
            | (Panics, w'') => Ret (Panics, w'')
            | (Blocks, w'') => Ret (Blocks, w'')
            end)
      end).

Notation "x <- m ;; k" := (bind m (fun x => k))
  (at level 100, m at next level, right associativity, only parsing).
Notation "m ;;; k" := (bind m (fun _ => k))
  (at level 100, right associativity, only parsing).

(** *** The fields and the two kinds of mutex *)

(** Every access to a field that [fdMtx] guards goes through [touch]. *)
Definition touch (w : wrapper) : wrapper :=
  if locked (fdMtx w) then w else set_unguarded true w.

(** [w.fdMtx.Lock()]: waits while the mutex is held. *)
Definition fdMtx_Lock : M unit :=
  fun w =>
    if locked (fdMtx w) then Ret (Blocks, w)
    else Ret (Returns tt, set_fdMtx held_Mutex w).

(** Whether the file map and the write-lock map have the same keys. *)
Definition keys_agree (w : wrapper) : bool :=
  bool_decide (dom (fileDescriptors w) = dom (writeLocks w)).

(** What the end of a critical section records: [torn], when the two
    maps are left with different keys. *)
Definition at_release (w : wrapper) : wrapper :=
  if keys_agree w then w else set_torn true w.

(** [w.fdMtx.Unlock()]: unlocking a mutex that is not held is fatal. *)
Definition fdMtx_Unlock : M unit :=
  fun w =>
    if locked (fdMtx w)
    then Ret (Returns tt, set_fdMtx new_Mutex (at_release w))
    else Ret (Panics, w).

(** [w.nextFd++] *)
Definition incr_nextFd : M unit :=
  fun w => Ret (Returns tt, set_nextFd (uint64 (nextFd w + 1)) (touch w)).

(** reading [w.nextFd] *)
Definition load_nextFd : M Z :=
  fun w => Ret (Returns (nextFd w), touch w).

(** [w.fileDescriptors[fd]]; [None] is Go's [ok == false]. *)
Definition fileDescriptors_load (fd : Z) : M (option File) :=
  fun w => Ret (Returns (fileDescriptors w !! fd), touch w).

(** [w.fileDescriptors[fd] = fh] *)
Definition fileDescriptors_store (fd : Z) (fh : File) : M unit :=
  fun w =>
    Ret (Returns tt,
         set_fileDescriptors (<[fd := fh]> (fileDescriptors w)) (touch w)).

(** [delete(w.fileDescriptors, fd)] *)
Definition fileDescriptors_delete (fd : Z) : M unit :=
  fun w =>
    Ret (Returns tt,
         set_fileDescriptors (delete fd (fileDescriptors w)) (touch w)).

(** [w.writeLocks[fd]]: the pointer stored under [fd], or nil. *)
Definition writeLocks_load (fd : Z) : M (option nat) :=
  fun w => Ret (Returns (writeLocks w !! fd), touch w).

(** [w.writeLocks[fd] = p] *)
Definition writeLocks_store (fd : Z) (p : nat) : M unit :=
  fun w =>
    Ret (Returns tt, set_writeLocks (<[fd := p]> (writeLocks w)) (touch w)).

(** [delete(w.writeLocks, fd)] *)
Definition writeLocks_delete (fd : Z) : M unit :=
  fun w =>
    Ret (Returns tt, set_writeLocks (delete fd (writeLocks w)) (touch w)).

(** [new(sync.Mutex)]: a pointer to a fresh, unlocked mutex. *)
Definition new_sync_Mutex : M nat :=
  fun w =>
    Ret (Returns (length (mutexes w)),
         set_mutexes (mutexes w ++ [new_Mutex]) w).

(** [p.Lock()] on a [*sync.Mutex]: a nil pointer is dereferenced, a held
    mutex makes the caller wait. *)
Definition Mutex_Lock (p : option nat) : M unit :=
  fun w =>
    match p with
    | None => Ret (Panics, w)
    | Some l =>
        match mutexes w !! l with
        | None => Ret (Panics, w)
        | Some m =>
            if locked m then Ret (Blocks, w)
            else Ret (Returns tt,
                      set_mutexes (<[l := held_Mutex]> (mutexes w)) w)
        end
    end.

(** [p.Unlock()] on a [*sync.Mutex]. *)
Definition Mutex_Unlock (p : option nat) : M unit :=
  fun w =>
    match p with
    | None => Ret (Panics, w)
    | Some l =>
        match mutexes w !! l with
        | None => Ret (Panics, w)
        | Some m =>
            if locked m
            then Ret (Returns tt,
                      set_mutexes (<[l := new_Mutex]> (mutexes w)) w)
            else Ret (Panics, w)
        end
    end.

(** The result of a type assertion on [w.underlying]. *)
Definition capabilities : M Capabilities :=
  fun w => Ret (Returns (underlying w), w).

(** [for _, x := range l { body }] *)
Fixpoint for_range {A} (l : list A) (body : A -> M unit) : M unit :=
  match l with
  | [] => ret tt
  | x :: l' => body x ;;; for_range l' body
  end.

(** *** The two converters *)

Definition convertError (err : option error) : Z :=
  match err with
  | None => 0
  | Some e =>
      if os_IsExist e then - fuse_EEXIST
      else if os_IsNotExist e then - fuse_ENOENT
      else if os_IsPermission e then - fuse_EPERM
      else if errors_Is e os_ErrInvalid || errors_Is e os_ErrClosed
      then - fuse_EINVAL
      else - fuse_EIO
  end.

(** [fileInfoToStat(fi, out)] overwrites [*out]; the new value is the
    result here.  [fuse.S_IFDIR] is a constant of type [uint32], so the
    bitwise or stays within 32 bits. *)
Definition fileInfoToStat (fi : FileInfo) : Stat_t :=
  let out :=
    {| st_Dev := 0; st_Ino := 0; st_Mode := uint32 (Mode fi); st_Nlink := 0;
       st_Uid := 0; st_Gid := 0; st_Rdev := 0; st_Size := Size fi;
       st_Atim := Timespec_zero; st_Mtim := NewTimespec (ModTime fi);
       st_Ctim := Timespec_zero; st_Blksize := 0; st_Blocks := 0;
       st_Birthtim := Timespec_zero; st_Flags := 0 |} in
  if IsDir fi then
    {| st_Dev := st_Dev out; st_Ino := st_Ino out;
       st_Mode := Z.lor (st_Mode out) fuse_S_IFDIR;
       st_Nlink := st_Nlink out; st_Uid := st_Uid out; st_Gid := st_Gid out;
       st_Rdev := st_Rdev out; st_Size := st_Size out;
       st_Atim := st_Atim out; st_Mtim := st_Mtim out;
       st_Ctim := st_Ctim out; st_Blksize := st_Blksize out;
       st_Blocks := st_Blocks out; st_Birthtim := st_Birthtim out;
       st_Flags := st_Flags out |}
  else out.

(** *** The handle table *)

Definition createFileDescriptor (fh : File) : M Z :=
  fdMtx_Lock ;;;
  defer fdMtx_Unlock (
    incr_nextFd ;;;
    fd <- load_nextFd ;;
    fileDescriptors_store fd fh ;;;
    m <- new_sync_Mutex ;;
    writeLocks_store fd m ;;;
    ret fd).

Definition getFileDescriptor (fd : Z) : M (option File) :=
  fdMtx_Lock ;;;
  defer fdMtx_Unlock (
    fh <- fileDescriptors_load fd ;;
    ret fh).

(** The second component is the method value [w.writeLocks[fd].Unlock]. *)
Definition getFileDescriptorWithLock (fd : Z) : M (option File * M unit) :=
  fdMtx_Lock ;;;
  defer fdMtx_Unlock (
    fh <- fileDescriptors_load fd ;;
    p <- writeLocks_load fd ;;
    Mutex_Lock p ;;;
    q <- writeLocks_load fd ;;
    ret (fh, Mutex_Unlock q)).

(** The octal literal [0777]. *)
Definition perm_0777 : Z := 511.

(** *** The callbacks

    A pointer argument that the callback writes through ([stat], [buff])
    is handed back next to the return code. *)

Definition Init : M unit := ret tt.

Definition Destroy : M unit := ret tt.

Definition Statfs (path : string) : M Z := ret (- fuse_ENOSYS).

Definition Mknod (path : string) (mode dev : Z) : M Z := ret (- fuse_ENOSYS).

Definition Mkdir (path : string) (mode : Z) : M Z :=
  caps <- capabilities ;;
  if has_Dir caps then
    err <- ask (Dir_MkdirAll path mode) ;;
    ret (convertError err)
  else ret (- fuse_ENOSYS).

Definition Unlink (path : string) : M Z :=
  err <- ask (Basic_Remove path) ;;
  ret (convertError err).

Definition Rmdir (path : string) : M Z :=
  err <- ask (Basic_Remove path) ;;
  ret (convertError err).

Definition Link (oldpath newpath : string) : M Z := ret (- fuse_ENOSYS).

Definition Symlink (target newpath : string) : M Z :=
  caps <- capabilities ;;
  if has_Symlink caps then
    err <- ask (Symlink_Symlink target newpath) ;;
    ret (convertError err)
  else ret (- fuse_ENOSYS).

Definition Readlink (path : string) : M (Z * string) :=
  caps <- capabilities ;;
  if has_Symlink caps then
    r <- ask (Symlink_Readlink path) ;;
    match r with
    | inr err => ret (convertError (Some err), EmptyString)
    | inl fn => ret (0, fn)
    end
  else ret (- fuse_ENOSYS, EmptyString).

Definition Rename (oldpath newpath : string) : M Z :=
  err <- ask (Basic_Rename oldpath newpath) ;;
  ret (convertError err).

Definition Chmod (path : string) (mode : Z) : M Z :=
  caps <- capabilities ;;
  if has_Change caps then
    err <- ask (Change_Chmod path mode) ;;
    ret (convertError err)
  else ret (- fuse_ENOSYS).

Definition Chown (path : string) (uid gid : Z) : M Z :=
  caps <- capabilities ;;
  if has_Change caps then
    err <- ask (Change_Chown path uid gid) ;;
    ret (convertError err)
  else ret (- fuse_ENOSYS).

Definition Utimens (path : string) (tmsp : list Timespec) : M Z :=
  caps <- capabilities ;;
  if has_Change caps then
    match tmsp with
    | [t0; t1] =>
        err <- ask (Change_Chtimes path (Timespec_Time t0) (Timespec_Time t1)) ;;
        ret (convertError err)
    | _ => ret (- fuse_EINVAL)
    end
  else ret (- fuse_ENOSYS).

Definition Access (path : string) (mask : Z) : M Z := ret (- fuse_ENOSYS).

Definition Create (path : string) (flags : Z) (mode : Z) : M (Z * Z) :=
  r <- ask (Basic_OpenFile path (Z.lor (Z.lor flags os_O_CREATE) os_O_RDWR) mode) ;;
  match r with
  | inr err => ret (convertError (Some err), 0)
  | inl fh =>
      fd <- createFileDescriptor fh ;;
      ret (0, fd)
  end.

Definition Open (path : string) (flags : Z) : M (Z * Z) :=
  r <- ask (Basic_OpenFile path (Z.lor flags os_O_RDONLY) perm_0777) ;;
  match r with
  | inr err => ret (convertError (Some err), 0)
  | inl fh =>
      fd <- createFileDescriptor fh ;;
      ret (0, fd)
  end.

Definition Getattr (path : string) (stat : Stat_t) (fd : Z) : M (Z * Stat_t) :=
  r <- ask (Basic_Stat path) ;;
  match r with
  | inr err => ret (convertError (Some err), stat)
  | inl fi => ret (0, fileInfoToStat fi)
  end.

Definition Truncate (path : string) (size : Z) (fd : Z) : M Z :=
  if bool_decide (fd <> no_handle) then
    fh <- getFileDescriptor fd ;;
    match fh with
    | None => ret (- fuse_EINVAL)
    | Some fh =>
        err <- ask (File_Truncate fh size) ;;
        ret (convertError err)
    end
  else
    r <- ask (Basic_OpenFile path os_O_WRONLY perm_0777) ;;
    match r with
    | inr err => ret (convertError (Some err))
    | inl fh =>
        defer (ask (File_Close fh) ;;; ret tt) (
          err <- ask (File_Truncate fh size) ;;
          ret (convertError err))
    end.

Definition Read (path : string) (buff : list Byte.byte) (ofst : Z) (fd : Z)
  : M (Z * list Byte.byte) :=
  fh <- getFileDescriptor fd ;;
  match fh with
  | None => ret (- fuse_EINVAL, buff)
  | Some fh =>
      r <- ask (File_ReadAt fh buff ofst) ;;
      let '(buff', n, err) := r in
      if (0 <? n) || bool_decide (err = Some io_EOF) then ret (n, buff')
      else ret (convertError err, buff')
  end.

Definition Write (path : string) (buff : list Byte.byte) (ofst : Z) (fd : Z)
  : M Z :=
  r <- getFileDescriptorWithLock fd ;;
  let '(fh, unlock) := r in
  match fh with
  | None => ret (- fuse_EINVAL)
  | Some fh =>
      if is_WriterAt fh then
        unlock ;;;
        r <- ask (File_WriteAt fh buff ofst) ;;
        match r with
        | (_, Some err) => ret (convertError (Some err))
        | (n, None) => ret n
        end
      else
        defer unlock (
          r <- ask (File_Seek fh ofst io_SeekStart) ;;
          match r with
          | (_, Some err) => ret (convertError (Some err))
          | (_, None) =>
              r <- ask (File_Write fh buff) ;;
              match r with
              | (_, Some err) => ret (convertError (Some err))
              | (n, None) => ret n
              end
          end)
  end.

Definition Flush (path : string) (fd : Z) : M Z := ret (- fuse_ENOSYS).

Definition Release (path : string) (fd : Z) : M Z :=
  fdMtx_Lock ;;;
  defer fdMtx_Unlock (
    fh <- fileDescriptors_load fd ;;
    match fh with
    | None => ret (- fuse_EINVAL)
    | Some fh =>
        fileDescriptors_delete fd ;;;
        writeLocks_delete fd ;;;
        err <- ask (File_Close fh) ;;
        ret (convertError err)
    end).

Definition Fsync (path : string) (datasync : bool) (fd : Z) : M Z :=
  ret (- fuse_ENOSYS).

Definition Opendir (path : string) : M (Z * Z) :=
  fdMtx_Lock ;;;
  defer fdMtx_Unlock (
    incr_nextFd ;;;
    fd <- load_nextFd ;;
    ret (0, fd)).

Definition Readdir (path : string) (ofst : Z) (fh : Z) : M Z :=
  caps <- capabilities ;;
  if has_Dir caps then
    r <- ask (Dir_ReadDir path) ;;
    match r with
    | inr err => ret (convertError (Some err))
    | inl entries =>
        for_range entries (fun e =>
          let st := fileInfoToStat e in
          ask (fill (Name e) st 0) ;;; ret tt) ;;;
        ret (- fuse_ENOSYS)
    end
  else ret (- fuse_ENOSYS).

Definition Releasedir (path : string) (fd : Z) : M Z := ret 0.

Definition Fsyncdir (path : string) (datasync : bool) (fd : Z) : M Z :=
  ret (- fuse_ENOSYS).

Definition Setxattr (path name : string) (value : list Byte.byte) (flags : Z)
  : M Z :=
  ret (- fuse_ENOSYS).

Definition Getxattr (path name : string) : M (Z * list Byte.byte) :=
  ret (- fuse_ENOSYS, []).

Definition Removexattr (path name : string) : M Z := ret (- fuse_ENOSYS).

Definition Listxattr (path : string) : M Z := ret (- fuse_ENOSYS).

(** ** The driver's view: one callback after the other *)

(** A callback with its arguments. *)
Inductive op : Type :=
  | op_Init
  | op_Destroy
  | op_Statfs (path : string)
  | op_Mknod (path : string) (mode dev : Z)
  | op_Mkdir (path : string) (mode : Z)
  | op_Unlink (path : string)
  | op_Rmdir (path : string)
  | op_Link (oldpath newpath : string)
  | op_Symlink (target newpath : string)
  | op_Readlink (path : string)
  | op_Rename (oldpath newpath : string)
  | op_Chmod (path : string) (mode : Z)
  | op_Chown (path : string) (uid gid : Z)
  | op_Utimens (path : string) (tmsp : list Timespec)
  | op_Access (path : string) (mask : Z)
  | op_Create (path : string) (flags mode : Z)
  | op_Open (path : string) (flags : Z)
  | op_Getattr (path : string) (stat : Stat_t) (fd : Z)
  | op_Truncate (path : string) (size fd : Z)
  | op_Read (path : string) (buff : list Byte.byte) (ofst fd : Z)
  | op_Write (path : string) (buff : list Byte.byte) (ofst fd : Z)
  | op_Flush (path : string) (fd : Z)
  | op_Release (path : string) (fd : Z)
  | op_Fsync (path : string) (datasync : bool) (fd : Z)
  | op_Opendir (path : string)
  | op_Readdir (path : string) (ofst fh : Z)
  | op_Releasedir (path : string) (fd : Z)
  | op_Fsyncdir (path : string) (datasync : bool) (fd : Z)
  | op_Setxattr (path name : string) (value : list Byte.byte) (flags : Z)
  | op_Getxattr (path name : string)
  | op_Removexattr (path name : string)
  | op_Listxattr (path : string).

(** What a callback hands back to the driver. *)
Inductive retval : Type :=
  | rv_unit
  | rv_int (n : Z)
  | rv_int_fd (n fd : Z)
  | rv_int_string (n : Z) (s : string)
  | rv_int_bytes (n : Z) (b : list Byte.byte)
  | rv_int_stat (n : Z) (st : Stat_t).

Definition fmap_M {A B} (f : A -> B) (m : M A) : M B :=
  x <- m ;; ret (f x).

Definition exec (o : op) : M retval :=
  match o with
  | op_Init => fmap_M (fun _ => rv_unit) Init
  | op_Destroy => fmap_M (fun _ => rv_unit) Destroy
  | op_Statfs path => fmap_M rv_int (Statfs path)
  | op_Mknod path mode dev => fmap_M rv_int (Mknod path mode dev)
  | op_Mkdir path mode => fmap_M rv_int (Mkdir path mode)
  | op_Unlink path => fmap_M rv_int (Unlink path)
  | op_Rmdir path => fmap_M rv_int (Rmdir path)
  | op_Link oldpath newpath => fmap_M rv_int (Link oldpath newpath)
  | op_Symlink target newpath => fmap_M rv_int (Symlink target newpath)
  | op_Readlink path =>
      fmap_M (fun r => rv_int_string (fst r) (snd r)) (Readlink path)
  | op_Rename oldpath newpath => fmap_M rv_int (Rename oldpath newpath)
  | op_Chmod path mode => fmap_M rv_int (Chmod path mode)
  | op_Chown path uid gid => fmap_M rv_int (Chown path uid gid)
  | op_Utimens path tmsp => fmap_M rv_int (Utimens path tmsp)
  | op_Access path mask => fmap_M rv_int (Access path mask)
  | op_Create path flags mode =>
      fmap_M (fun r => rv_int_fd (fst r) (snd r)) (Create path flags mode)
  | op_Open path flags =>
      fmap_M (fun r => rv_int_fd (fst r) (snd r)) (Open path flags)
  | op_Getattr path stat fd =>
      fmap_M (fun r => rv_int_stat (fst r) (snd r)) (Getattr path stat fd)
  | op_Truncate path size fd => fmap_M rv_int (Truncate path size fd)
  | op_Read path buff ofst fd =>
      fmap_M (fun r => rv_int_bytes (fst r) (snd r)) (Read path buff ofst fd)
  | op_Write path buff ofst fd => fmap_M rv_int (Write path buff ofst fd)
  | op_Flush path fd => fmap_M rv_int (Flush path fd)
  | op_Release path fd => fmap_M rv_int (Release path fd)
  | op_Fsync path datasync fd => fmap_M rv_int (Fsync path datasync fd)
  | op_Opendir path =>
      fmap_M (fun r => rv_int_fd (fst r) (snd r)) (Opendir path)
  | op_Readdir path ofst fh => fmap_M rv_int (Readdir path ofst fh)
  | op_Releasedir path fd => fmap_M rv_int (Releasedir path fd)
  | op_Fsyncdir path datasync fd => fmap_M rv_int (Fsyncdir path datasync fd)
  | op_Setxattr path name value flags =>
      fmap_M rv_int (Setxattr path name value flags)
  | op_Getxattr path name =>
      fmap_M (fun r => rv_int_bytes (fst r) (snd r)) (Getxattr path name)
  | op_Removexattr path name => fmap_M rv_int (Removexattr path name)
  | op_Listxattr path => fmap_M rv_int (Listxattr path)
  end.

(** ** Running a call tree against an environment *)

(** The environment answers every call and keeps a state of its own. *)
Definition handler (U : Type) : Type := forall c : call, U -> answer c * U.

(** A call together with its answer. *)
Inductive event : Type :=
  | Ev (c : call) (r : answer c).

Fixpoint run {U A} (h : handler U) (p : prog A) (u : U)
  : A * U * list event :=
  match p with
  | Ret a => (a, u, [])
  | Do c k =>
      let '(r, u1) := h c u in
      let '(a, u2, t) := run h (k r) u1 in
      (a, u2, Ev c r :: t)
  end.

(** One callback of a session: the wrapper before, the calls it made
    with their answers, how it ended, the wrapper after. *)
Record step := {
  step_op : op;
  step_before : wrapper;
  step_events : list event;
  step_outcome : outcome retval;
  step_after : wrapper
}.

Fixpoint run_ops {U} (h : handler U) (ops : list op) (w : wrapper) (u : U)
  : list step * wrapper * U :=
  match ops with
  | [] => ([], w, u)
  | o :: ops' =>
      let '(r, w1, u1, t) := run h (exec o w) u in
      let '(ss, w2, u2) := run_ops h ops' w1 u1 in
      ({| step_op := o; step_before := w; step_events := t;
          step_outcome := r; step_after := w1 |} :: ss, w2, u2)
  end.

(** The steps of a session that starts at a fresh wrapper. *)
Definition session {U} (h : handler U) (caps : Capabilities) (ops : list op)
  (u : U) : list step :=
  (run_ops h ops (New caps) u).1.1.

(** Whether a step allocates a handle: [Create] and [Open] do when
    [OpenFile] succeeded, [Opendir] always does. *)
Definition allocates (o : op) (t : list event) : bool :=
  match o with
  | op_Create _ _ _ | op_Open _ _ =>
      match t with
      | Ev (Basic_OpenFile _ _ _) (inl _) :: _ => true
      | _ => false
      end
  | op_Opendir _ => true
  | _ => false
  end.

(** The handle a step gave to the driver, if it allocated one. *)
Definition step_handle (s : step) : option Z :=
  if allocates (step_op s) (step_events s) then
    match step_outcome s with
    | Returns (rv_int_fd _ fd) => Some fd
    | _ => None
    end
  else None.

(** The handles of a session, oldest first. *)
Definition handles (ss : list step) : list Z := omap step_handle ss.

(** A postcondition that holds whatever the environment answers. *)
Fixpoint post {A} (p : prog A) (Q : list event -> A -> Prop) : Prop :=
  match p with
  | Ret a => Q [] a
  | Do c k => forall r, post (k r) (fun t => Q (Ev c r :: t))
  end.

(** ** The wrapper between two callbacks *)

(** What holds of the wrapper whenever no callback is running: the
    table lock is free, the two maps have the same keys, every write
    lock in the table is an allocated mutex that nobody holds, and no
    guarded field was touched outside the table lock. *)
Record consistent (w : wrapper) : Prop := {
  fdMtx_free : locked (fdMtx w) = false;
  same_keys : dom (fileDescriptors w) = dom (writeLocks w);
  locks_free :
    forall fd l, writeLocks w !! fd = Some l ->
                 mutexes w !! l = Some new_Mutex;
  all_guarded : unguarded w = false
}.

(** Every handle in the table was issued by the counter. *)
Definition issued (w : wrapper) : Prop :=
  0 <= nextFd w /\
  forall fd, fd ∈ dom (fileDescriptors w) -> 0 < fd <= nextFd w.

(** The wrapper after [createFileDescriptor] has stored [fh] under [fd]. *)
Definition registered (fd : Z) (fh : File) (w : wrapper) : wrapper :=
  {| underlying := underlying w; fdMtx := fdMtx w;
     fileDescriptors := <[fd := fh]> (fileDescriptors w);
     nextFd := fd;
     writeLocks := <[fd := length (mutexes w)]> (writeLocks w);
     mutexes := mutexes w ++ [new_Mutex];
     unguarded := unguarded w; torn := torn w |}.

(** The wrapper after [Release] has deleted [fd] from both maps. *)
Definition released (fd : Z) (w : wrapper) : wrapper :=
  {| underlying := underlying w; fdMtx := fdMtx w;
     fileDescriptors := delete fd (fileDescriptors w);
     nextFd := nextFd w;
     writeLocks := delete fd (writeLocks w);
     mutexes := mutexes w;
     unguarded := unguarded w; torn := torn w |}.

(** How one callback changes the wrapper. *)
Inductive effect (w : wrapper) (o : op) (t : list event)
  : outcome retval -> wrapper -> Prop :=
  | effect_none r :
      allocates o t = false ->
      r <> Blocks ->
      (forall path fd, o = op_Release path fd ->
                       fileDescriptors w !! fd = None) ->
      effect w o t r w
  | effect_release path fd fh n :
      o = op_Release path fd ->
      fileDescriptors w !! fd = Some fh ->
      effect w o t (Returns (rv_int n)) (released fd w)
  | effect_token fd :
      allocates o t = true ->
      fd = uint64 (nextFd w + 1) ->
      effect w o t (Returns (rv_int_fd 0 fd)) (set_nextFd fd w)
  | effect_register fd fh :
      allocates o t = true ->
      fd = uint64 (nextFd w + 1) ->
      effect w o t (Returns (rv_int_fd 0 fd)) (registered fd fh w).

(** A session in which every callback had one of these effects.  *)
Inductive sound_from : wrapper -> list step -> Prop :=
  | sound_nil w : sound_from w []
  | sound_cons w s ss :
      step_before s = w ->
      effect w (step_op s) (step_events s) (step_outcome s) (step_after s) ->
      sound_from (step_after s) ss ->
      sound_from w (s :: ss).

(** Each step of a session starts where the step before it ended. *)
Fixpoint chained (w : wrapper) (ss : list step) : Prop :=
  match ss with
  | [] => True
  | s :: ss' => step_before s = w /\ chained (step_after s) ss'
  end.

(** The call of an event, without its answer. *)
Definition event_call (e : event) : call :=
  match e with Ev c _ => c end.

(** ** The specification's words, for comparison with the code *)

(** The classes of the Error Translator, in the order in which it tries
    them: an error belongs to the first class that recognises it. *)
Inductive error_class : Type :=
  | Success
  | AlreadyExists
  | NotFound
  | PermissionDenied
  | InvalidOrClosed
  | OtherFailure.

Inductive classified : option error -> error_class -> Prop :=
  | is_Success : classified None Success
  | is_AlreadyExists e :
      os_IsExist e = true ->
      classified (Some e) AlreadyExists
  | is_NotFound e :
      os_IsExist e = false ->
      os_IsNotExist e = true ->
      classified (Some e) NotFound
  | is_PermissionDenied e :
      os_IsExist e = false ->
      os_IsNotExist e = false ->
      os_IsPermission e = true ->
      classified (Some e) PermissionDenied
  | is_InvalidOrClosed e :
      os_IsExist e = false ->
      os_IsNotExist e = false ->
      os_IsPermission e = false ->
      errors_Is e os_ErrInvalid = true \/ errors_Is e os_ErrClosed = true ->
      classified (Some e) InvalidOrClosed
  | is_OtherFailure e :
      os_IsExist e = false ->
      os_IsNotExist e = false ->
      os_IsPermission e = false ->
      errors_Is e os_ErrInvalid = false ->
      errors_Is e os_ErrClosed = false ->
      classified (Some e) OtherFailure.

(** The driver code of a class. *)
Definition class_code (c : error_class) : Z :=
  match c with
  | Success => 0
  | AlreadyExists => - fuse_EEXIST
  | NotFound => - fuse_ENOENT
  | PermissionDenied => - fuse_EPERM
  | InvalidOrClosed => - fuse_EINVAL
  | OtherFailure => - fuse_EIO
  end.

(** What [Read] reports for a positioned read that gave [n] bytes and
    [err]: the byte count when it is positive or the read hit the end
    of the stream, the translated error otherwise. *)
Definition Read_reports (n : Z) (err : option error) : Z :=
  if decide (0 < n \/ err = Some io_EOF) then n else convertError err.

(** Whether a callback may take the table lock: the callbacks that
    reach [createFileDescriptor] or [getFileDescriptor], lock [fdMtx]
    themselves, or go through [getFileDescriptorWithLock]. *)
Definition takes_table_lock (o : op) : bool :=
  match o with
  | op_Create _ _ _ | op_Open _ _ | op_Read _ _ _ _ | op_Write _ _ _ _
  | op_Release _ _ | op_Opendir _ => true
  | op_Truncate _ _ fd => bool_decide (fd <> no_handle)
  | _ => false
  end.

(** The keys of the file table after a step, from the keys before it:
    a [Create] or [Open] that allocated adds its handle, [Release]
    takes its handle out. *)
Definition table_after (keys : gset Z) (s : step) : gset Z :=
  match step_op s with
  | op_Create _ _ _ | op_Open _ _ =>
      match step_handle s with
      | Some fd => {[fd]} ∪ keys
      | None => keys
      end
  | op_Release _ fd => keys ∖ {[fd]}
  | _ => keys
  end.

(** The handles that a session has opened and not released. *)
Definition open_handles (ss : list step) : gset Z :=
  foldl table_after ∅ ss.

End Wrapper.

(** ** A concrete platform and environment

    Linux errno values and open flags, Go's sentinel errors, and small
    environments that answer the wrapper's calls.  The examples and the
    counterexamples run on them. *)

Module Fixture.

#[local] Open Scope string_scope.

Definition linux : Platform :=
  {| fuse_EPERM := 1; fuse_ENOENT := 2; fuse_EIO := 5; fuse_EEXIST := 17;
     fuse_EINVAL := 22; fuse_ENOSYS := 38; fuse_S_IFDIR := 16384;
     os_O_RDONLY := 0; os_O_WRONLY := 1; os_O_RDWR := 2; os_O_CREATE := 64;
     io_SeekStart := 0 |}.

(** The sentinel errors of packages [os] and [io], and one error that
    no classifier recognises. *)
Inductive os_error : Type :=
  | ErrInvalid
  | ErrPermission
  | ErrExist
  | ErrNotExist
  | ErrClosed
  | EOF
  | ErrNoSpace.

Definition os_error_eq_dec : EqDecision os_error.
Proof. solve_decision. Defined.

Definition os_error_beq (a b : os_error) : bool :=
  if os_error_eq_dec a b then true else false.

Definition go_errors : GoError :=
  {| error := os_error;
     error_eq_dec := os_error_eq_dec;
     io_EOF := EOF;
     os_ErrInvalid := ErrInvalid;
     os_ErrClosed := ErrClosed;
     os_IsExist := os_error_beq ErrExist;
     os_IsNotExist := os_error_beq ErrNotExist;
     os_IsPermission := os_error_beq ErrPermission;
     errors_Is := os_error_beq |}.

(** An open file: a number, and whether it has a [WriteAt] method. *)
Record mem_file := { file_id : nat; file_WriterAt : bool }.

Definition mem_files : BillyFile :=
  {| File := mem_file; is_WriterAt := file_WriterAt |}.

#[local] Existing Instances linux go_errors mem_files.

(** An environment that answers from a fixed script. *)
Record script := {
  on_OpenFile : mem_file + os_error;
  on_ReadDir : list FileInfo + os_error;
  on_ReadAt : Z * option os_error;
  on_WriteAt : Z * option os_error;
  on_Truncate : option os_error;
  on_Close : option os_error
}.

Definition scripted (s : script) : handler unit :=
  fun c u =>
    (match c return answer c with
     | Basic_OpenFile _ _ _ => on_OpenFile s
     | Basic_Stat _ => inr ErrNotExist
     | Dir_ReadDir _ => on_ReadDir s
     | Symlink_Readlink _ => inr ErrNotExist
     | File_ReadAt _ buff _ => (buff, (on_ReadAt s).1, (on_ReadAt s).2)
     | File_WriteAt _ _ _ => on_WriteAt s
     | File_Seek _ ofst _ => (ofst, None)
     | File_Write _ buff => (Z.of_nat (length buff), None)
     | fill _ _ _ => true
     | File_Truncate _ _ => on_Truncate s
     | File_Close _ => on_Close s
     | Basic_Remove _ | Basic_Rename _ _ | Dir_MkdirAll _ _ | Symlink_Symlink _ _ | Change_Chmod _ _
     | Change_Chown _ _ _ | Change_Chtimes _ _ _ => None
     end, u).

Definition the_file : mem_file := {| file_id := 7; file_WriterAt := true |}.

Definition entry_a : FileInfo :=
  {| Name := "a"; Size := 5; Mode := 420;
     ModTime := {| Unix := 1700000000; Nanosecond := 250 |};
     IsDir := false |}.

Definition entry_d : FileInfo :=
  {| Name := "d"; Size := 0; Mode := 493;
     ModTime := {| Unix := 1700000001; Nanosecond := 0 |};
     IsDir := true |}.

(** Every call succeeds. *)
Definition all_good : script :=
  {| on_OpenFile := inl the_file;
     on_ReadDir := inl [entry_a; entry_d];
     on_ReadAt := (5, None);
     on_WriteAt := (5, None);
     on_Truncate := None;
     on_Close := None |}.

(** The directory to list does not exist. *)
Definition no_such_dir : script :=
  {| on_OpenFile := inr ErrNotExist;
     on_ReadDir := inr ErrNotExist;
     on_ReadAt := (0, Some EOF);
     on_WriteAt := (0, Some ErrNoSpace);
     on_Truncate := Some ErrInvalid;
     on_Close := None |}.

(** [Close] fails, everything else succeeds. *)
Definition close_fails : script :=
  {| on_OpenFile := inl the_file;
     on_ReadDir := inl [];
     on_ReadAt := (0, Some EOF);
     on_WriteAt := (5, None);
     on_Truncate := None;
     on_Close := Some ErrPermission |}.

Definition all_caps : Capabilities :=
  {| has_Dir := true; has_Symlink := true; has_Change := true |}.

(** The wrapper after one successful [Create]: [the_file] under
    handle 1. *)
Definition with_file : wrapper := registered 1 the_file (New all_caps).

(** A session that allocates four handles and releases one. *)
Definition four_handles : list op :=
  [op_Create "/a" 2 420; op_Opendir "/"; op_Open "/a" 0;
   op_Release "/a" 1; op_Create "/b" 2 420].

(** The directories that [MkdirAll path] makes sure exist: every prefix
    of [path] that ends before a separator, and [path] itself. *)
Fixpoint dirs_from (pre rest : string) : list string :=
  match rest with
  | EmptyString => [pre]
  | String c rest' =>
      ((if Ascii.eqb c "/"%char && negb (String.eqb pre "") then [pre]
        else [])
       ++ dirs_from (pre ++ String c "") rest')%list
  end.

Definition dirs_of (path : string) : list string := dirs_from "" path.

(** An environment that only keeps directories: its state is the list
    of the directories that exist, and [MkdirAll] adds what is missing
    and succeeds. *)
Definition dir_tree (c : call) (u : list string) : answer c * list string :=
  match c return answer c * list string with
  | Dir_MkdirAll path _ => (None, (dirs_of path ++ u)%list)
  | c' => ((scripted all_good c' tt).1, u)
  end.

Definition is_dir (u : list string) (p : string) : bool :=
  existsb (String.eqb p) u.

(** A filesystem without any of the optional interfaces. *)
Definition no_caps : Capabilities :=
  {| has_Dir := false; has_Symlink := false; has_Change := false |}.

(** An open file without a [WriteAt] method. *)
Definition plain_file : mem_file := {| file_id := 8; file_WriterAt := false |}.

(** The wrapper with [plain_file] under handle 1. *)
Definition with_plain_file : wrapper :=
  registered 1 plain_file (New all_caps).

(** The same wrapper while some callback holds the write lock of
    handle 1. *)
Definition mid_write : wrapper := set_mutexes [held_Mutex] with_plain_file.

(** [Seek] fails, everything else succeeds. *)
Definition seek_fails (c : call) (u : unit) : answer c * unit :=
  match c return answer c * unit with
  | File_Seek _ _ _ => ((0, Some ErrInvalid), u)
  | c' => scripted all_good c' u
  end.

(** The wrapper of [mid_write] while a second writer waits for that
    write lock, the table lock in its hands. *)
Definition writer_waiting : wrapper := set_fdMtx held_Mutex mid_write.

End Fixture.

(** * Theorems *)

Section Proofs.

Context `{PF : Platform} `{GE : GoError} `{BF : BillyFile}.

#[local] Arguments Mutex_Unlock : simpl never.
#[local] Arguments convertError : simpl never.
#[local] Arguments at_release : simpl never.

(** ** Postconditions and runs *)

Lemma post_mono {A} (p : prog A) (Q Q' : list event -> A -> Prop) :
  (forall t a, Q t a -> Q' t a) -> post p Q -> post p Q'.
Proof.
  revert Q Q'. induction p as [a | c k IH]; simpl; intros Q Q' HQ Hp.
  - by apply HQ.
  - intros r. eapply IH; [| apply Hp]. intros t a. apply HQ.
Qed.

Lemma post_bind {A B} (p : prog A) (f : A -> prog B)
  (Q : list event -> B -> Prop) :
  post p (fun t a => post (f a) (fun t' => Q (t ++ t'))) ->
  post (prog_bind p f) Q.
Proof.
  revert Q. induction p as [a | c k IH]; simpl; intros Q Hp.
  - done.
  - intros r. apply IH. apply Hp.
Qed.

Lemma post_run {A} (p : prog A) (Q : list event -> A -> Prop) :
  post p Q ->
  forall U (h : handler U) (u : U), Q (run h p u).2 (run h p u).1.1.
Proof.
  revert Q. induction p as [a | c k IH]; simpl; intros Q Hp U h u.
  - done.
  - destruct (h c u) as [r u1] eqn:Hh.
    specialize (IH r _ (Hp r) U h u1).
    destruct (run h (k r) u1) as [[a u2] t]. done.
Qed.

Lemma run_bind {U A B} (h : handler U) (p : prog A) (f : A -> prog B)
  (u : U) :
  run h (prog_bind p f) u =
  let '(a, u1, t1) := run h p u in
  let '(b, u2, t2) := run h (f a) u1 in
  (b, u2, t1 ++ t2).
Proof.
  revert u. induction p as [a | c k IH]; simpl; intros u.
  - by destruct (run h (f a) u) as [[b u2] t2].
  - destruct (h c u) as [r u1]. rewrite IH.
    destruct (run h (k r) u1) as [[a u2] t1].
    by destruct (run h (f a) u2) as [[b u3] t2].
Qed.

(** ** The handle table, one method at a time *)

(** A critical section that ends with the two maps on the same keys
    leaves no mark. *)
Lemma at_release_agree (w : wrapper) :
  dom (fileDescriptors w) = dom (writeLocks w) -> at_release w = w.
Proof.
  intros Hk. unfold at_release, keys_agree. by rewrite bool_decide_true.
Qed.

Ltac end_section Hkeys :=
  rewrite at_release_agree
    by (cbn; rewrite ?dom_insert_L, ?dom_delete_L; congruence).

Lemma New_consistent (caps : Capabilities) : consistent (New caps).
Proof.
  split; simpl; done.
Qed.

Lemma same_keys_lookup (w : wrapper) (fd : Z) :
  consistent w ->
  (fileDescriptors w !! fd = None <-> writeLocks w !! fd = None).
Proof.
  intros Hc. rewrite <- !not_elem_of_dom. by rewrite (same_keys _ Hc).
Qed.

Lemma createFileDescriptor_eq (fh : File) (w : wrapper) :
  consistent w ->
  createFileDescriptor fh w =
  Ret (Returns (uint64 (nextFd w + 1)),
       registered (uint64 (nextFd w + 1)) fh w).
Proof.
  intros [Hfree Hkeys _ Hg].
  destruct w as [caps [lk] fds n wl ms ug tn]; simpl in *; subst lk ug.
  unfold createFileDescriptor, getFileDescriptor, Opendir, bind, defer; cbn.
  end_section Hkeys. reflexivity.
Qed.

Lemma getFileDescriptor_eq (fd : Z) (w : wrapper) :
  consistent w ->
  getFileDescriptor fd w = Ret (Returns (fileDescriptors w !! fd), w).
Proof.
  intros [Hfree Hkeys _ Hg].
  destruct w as [caps [lk] fds n wl ms ug tn]; simpl in *; subst lk ug.
  unfold createFileDescriptor, getFileDescriptor, Opendir, bind, defer; cbn.
  end_section Hkeys. reflexivity.
Qed.

Lemma Opendir_eq (path : string) (w : wrapper) :
  consistent w ->
  Opendir path w =
  Ret (Returns (0, uint64 (nextFd w + 1)),
       set_nextFd (uint64 (nextFd w + 1)) w).
Proof.
  intros [Hfree Hkeys _ Hg].
  destruct w as [caps [lk] fds n wl ms ug tn]; simpl in *; subst lk ug.
  unfold createFileDescriptor, getFileDescriptor, Opendir, bind, defer; cbn.
  end_section Hkeys. reflexivity.
Qed.

(** A handle without a table entry has no write lock either, so
    [w.writeLocks[fd]] is nil and [Lock] dereferences it. *)
Lemma getFileDescriptorWithLock_absent (fd : Z) (w : wrapper) :
  consistent w ->
  fileDescriptors w !! fd = None ->
  getFileDescriptorWithLock fd w = Ret (Panics, w).
Proof.
  intros Hc Hfd.
  pose proof (proj1 (same_keys_lookup w fd Hc) Hfd) as Hwl.
  destruct Hc as [Hfree Hkeys _ Hg].
  destruct w as [caps [lk] fds n wl ms ug tn]; simpl in *; subst lk ug.
  unfold getFileDescriptorWithLock, bind, defer; cbn.
  rewrite Hwl; cbn. end_section Hkeys. reflexivity.
Qed.

Lemma getFileDescriptorWithLock_present (fd : Z) (fh : File) (w : wrapper) :
  consistent w ->
  fileDescriptors w !! fd = Some fh ->
  exists l,
    writeLocks w !! fd = Some l /\
    mutexes w !! l = Some new_Mutex /\
    getFileDescriptorWithLock fd w =
    Ret (Returns (Some fh, Mutex_Unlock (Some l)),
         set_mutexes (<[l := held_Mutex]> (mutexes w)) w).
Proof.
  intros Hc Hfd.
  destruct (writeLocks w !! fd) as [l |] eqn:Hwl.
  2: { apply (same_keys_lookup w fd Hc) in Hwl. congruence. }
  exists l. pose proof (locks_free _ Hc fd l Hwl) as Hm.
  split; [done |]. split; [done |].
  destruct Hc as [Hfree Hkeys _ Hg].
  destruct w as [caps [lk] fds n wl ms ug tn]; simpl in *; subst lk ug.
  unfold getFileDescriptorWithLock, bind, defer; cbn.
  rewrite Hwl; cbn. rewrite Hm; cbn. end_section Hkeys.
  rewrite Hfd, Hwl. reflexivity.
Qed.

Lemma Mutex_Unlock_held (l : nat) (w : wrapper) :
  mutexes w !! l = Some new_Mutex ->
  Mutex_Unlock (Some l) (set_mutexes (<[l := held_Mutex]> (mutexes w)) w) =
  Ret (Returns tt, w).
Proof.
  intros Hm. unfold Mutex_Unlock; cbn.
  rewrite list_lookup_insert_eq by (by eapply lookup_lt_Some).
  cbn. rewrite list_insert_insert_eq. rewrite list_insert_id by done.
  by destruct w.
Qed.

(** The loop of [Readdir]: one [fill] per entry, in order, with the
    entry's name, its converted attributes and offset 0; the wrapper is
    not touched. *)
Lemma for_range_fill_post (entries : list FileInfo) (w : wrapper) :
  post
    (for_range entries
       (fun e =>
          let st := fileInfoToStat e in
          bind (ask (fill (Name e) st 0)) (fun _ => ret tt)) w)
    (fun t ow =>
       ow = (Returns tt, w) /\
       map event_call t =
       map (fun e => fill (Name e) (fileInfoToStat e) 0) entries).
Proof.
  induction entries as [| e entries IH].
  - done.
  - cbn [for_range]. unfold bind at 1. apply post_bind. cbn. intros r.
    eapply post_mono; [| apply IH].
    intros t ow [-> Ht]. split; [done |]. cbn. by rewrite Ht.
Qed.

(** ** Every callback has one of the four effects *)

Ltac no_effect :=
  apply effect_none; [done | done | by intros ? ? [= <- <-]].

Ltac crunch :=
  repeat (cbn;
    match goal with
    | |- forall r : _, _ => intros r
    | |- context [match ?x with _ => _ end] => destruct x eqn:?
    end).

Lemma exec_effect (o : op) (w : wrapper) :
  consistent w ->
  post (exec o w) (fun t ow => effect w o t ow.1 ow.2).
Proof.
  intros Hc. destruct o; unfold exec, fmap_M.
  all: try (cbn; crunch; no_effect).
  - (* Create *)
    unfold Create, bind, ask; cbn. intros [fh | err]; cbn.
    + rewrite createFileDescriptor_eq by done; cbn. by apply effect_register.
    + no_effect.
  - (* Open *)
    unfold Open, bind, ask; cbn. intros [fh | err]; cbn.
    + rewrite createFileDescriptor_eq by done; cbn. by apply effect_register.
    + no_effect.
  - (* Truncate *)
    unfold Truncate. case_bool_decide as Hfd.
    + unfold bind. rewrite getFileDescriptor_eq by done; cbn.
      destruct (fileDescriptors w !! fd); cbn; [intros r |];
        no_effect.
    + cbn. intros [fh | err]; cbn; [intros r1 r2; cbn |];
        no_effect.
  - (* Read *)
    unfold Read, bind. rewrite getFileDescriptor_eq by done; cbn.
    destruct (fileDescriptors w !! fd); cbn; [| no_effect].
    intros [[buff' n] err]; cbn.
    destruct (_ || _); cbn; no_effect.
  - (* Write *)
    unfold Write, bind.
    destruct (fileDescriptors w !! fd) as [fh |] eqn:Hfd.
    + destruct (getFileDescriptorWithLock_present fd fh w Hc Hfd)
        as (l & Hwl & Hm & ->); cbn.
      destruct (is_WriterAt fh); cbn.
      * rewrite Mutex_Unlock_held by done; cbn.
        intros [n [err |]]; cbn; no_effect.
      * unfold defer; cbn. intros [n [err |]]; cbn.
        -- rewrite Mutex_Unlock_held by done; cbn. no_effect.
        -- intros [n' [err |]]; cbn; rewrite Mutex_Unlock_held by done; cbn;
             no_effect.
    + rewrite getFileDescriptorWithLock_absent by done; cbn.
      no_effect.
  - (* Release *)
    destruct Hc as [Hfree Hkeys Hlocks Hg].
    destruct w as [caps [lk] fds n wl ms ug tn]; simpl in *; subst lk ug.
    cbn. destruct (fds !! fd) as [fh |] eqn:Hfd; cbn.
    + intros r. end_section Hkeys.
      match goal with
      | |- effect ?w0 ?o0 ?t0 _ _ =>
          exact (effect_release w0 o0 t0 path fd fh _ eq_refl Hfd)
      end.
    + end_section Hkeys. no_effect.
  - (* Opendir *)
    unfold bind. rewrite Opendir_eq by done; cbn. by apply effect_token.
  - (* Readdir *)
    unfold Readdir, bind, capabilities; cbn.
    destruct (has_Dir (underlying w)); cbn; [| no_effect].
    intros [entries | err]; cbn; [| no_effect].
    apply post_bind. apply post_bind.
    eapply post_mono; [| apply for_range_fill_post].
    intros t ow [-> _]; cbn. no_effect.
Qed.

Lemma effect_consistent (w w' : wrapper) (o : op) (t : list event)
  (r : outcome retval) :
  consistent w -> effect w o t r w' -> consistent w'.
Proof.
  intros Hc He. destruct He as [r _ _ _ | path fd fh n _ _ | fd _ _ | fd fh _ _].
  - done.
  - destruct Hc as [Hfree Hkeys Hlocks Hg]. split; simpl; try done.
    + by rewrite !dom_delete_L, Hkeys.
    + intros fd' l Hl. apply lookup_delete_Some in Hl as [_ Hl]. eauto.
  - by destruct Hc.
  - destruct Hc as [Hfree Hkeys Hlocks Hg]. split; simpl; try done.
    + by rewrite !dom_insert_L, Hkeys.
    + intros fd' l Hl. apply lookup_insert_Some in Hl as [[_ <-] | [_ Hl]].
      * by rewrite lookup_app_r, Nat.sub_diag.
      * apply lookup_app_l_Some. eauto.
Qed.

Lemma run_ops_sound {U} (h : handler U) (ops : list op) (w : wrapper) (u : U) :
  consistent w -> sound_from w (run_ops h ops w u).1.1.
Proof.
  revert w u. induction ops as [| o ops IH]; intros w u Hc; simpl.
  - constructor.
  - pose proof (post_run _ _ (exec_effect o w Hc) U h u) as He.
    destruct (run h (exec o w) u) as [[[r w1] u1] t]; simpl in He.
    specialize (IH w1 u1 (effect_consistent _ _ _ _ _ Hc He)).
    destruct (run_ops h ops w1 u1) as [[ss w2] u2]; simpl in *.
    by constructor.
Qed.

(** ** Error translation *)

(** C5: error translation is a function of the error value alone and
    classifies in order: nil gives 0, an already-exists error -EEXIST, a
    not-found error -ENOENT, a permission-denied error -EPERM, an
    invalid-argument or closed-handle error -EINVAL, every other
    non-nil error -EIO; translating the same error value twice gives the
    same code. *)
Theorem convertError_classifies (err : option error) (c : error_class) :
  classified err c ->
  convertError err = class_code c /\
  (forall err', err' = err -> convertError err' = convertError err).
Proof.
  intros Hc. split; [| by intros err' ->].
  destruct Hc as [| e H1 | e H1 H2 | e H1 H2 H3 | e H1 H2 H3 H4
                  | e H1 H2 H3 H4 H5]; unfold convertError; simpl.
  - done.
  - by rewrite H1.
  - by rewrite H1, H2.
  - by rewrite H1, H2, H3.
  - rewrite H1, H2, H3. by destruct H4 as [-> | ->]; [| rewrite orb_true_r].
  - by rewrite H1, H2, H3, H4, H5.
Qed.

(** Every error value has a class, so the six cases cover
    [convertError]. *)
Lemma classified_total (err : option error) : exists c, classified err c.
Proof.
  destruct err as [e |]; [| eexists; constructor].
  destruct (os_IsExist e) eqn:H1; [eexists; by apply is_AlreadyExists |].
  destruct (os_IsNotExist e) eqn:H2; [eexists; by apply is_NotFound |].
  destruct (os_IsPermission e) eqn:H3;
    [eexists; by apply is_PermissionDenied |].
  destruct (errors_Is e os_ErrInvalid) eqn:H4;
    [eexists; apply is_InvalidOrClosed; auto |].
  destruct (errors_Is e os_ErrClosed) eqn:H5;
    [eexists; apply is_InvalidOrClosed; auto |].
  eexists; by apply is_OtherFailure.
Qed.

(** ** Attribute conversion *)

Lemma land_lor_absorb (m s : Z) : Z.land (Z.lor m s) s = s.
Proof.
  apply Z.bits_inj'. intros i _. rewrite Z.land_spec, Z.lor_spec.
  by destruct (Z.testbit m i), (Z.testbit s i).
Qed.

(** C6: attribute conversion copies size, modification time and mode
    bits, ors the directory bit into the mode exactly when the record
    denotes a directory (so that bit is set for a directory whatever the
    permission bits are), and leaves every other field zero. *)
Theorem fileInfoToStat_fields (fi : FileInfo) :
  0 <= Mode fi < 2 ^ 32 ->
  let st := fileInfoToStat fi in
  st_Size st = Size fi /\
  Sec (st_Mtim st) = Unix (ModTime fi) /\
  Nsec (st_Mtim st) = Nanosecond (ModTime fi) /\
  st_Mode st =
    (if IsDir fi then Z.lor (Mode fi) fuse_S_IFDIR else Mode fi) /\
  (IsDir fi = true -> Z.land (st_Mode st) fuse_S_IFDIR = fuse_S_IFDIR) /\
  st_Uid st = 0 /\ st_Gid st = 0 /\ st_Nlink st = 0 /\
  st_Atim st = Timespec_zero /\ st_Ctim st = Timespec_zero /\
  st_Birthtim st = Timespec_zero /\
  st_Dev st = 0 /\ st_Ino st = 0 /\ st_Rdev st = 0 /\
  st_Blksize st = 0 /\ st_Blocks st = 0 /\ st_Flags st = 0.
Proof.
  intros Hmode. unfold fileInfoToStat, uint32.
  rewrite Z.mod_small by done.
  destruct (IsDir fi); simpl; repeat split; try done.
  intros _. apply land_lor_absorb.
Qed.

(** ** Readdir *)

(** C2, as the code has it: with a filesystem that lists directories,
    [Readdir] returns -ENOSYS when the listing succeeded, after one
    [fill] per entry (name, converted attributes, offset 0), in order;
    when the listing failed it makes no [fill] call and returns the
    translated error. *)
Theorem Readdir_result {U} (h : handler U) (u : U) (w : wrapper)
  (path : string) (ofst fh : Z) :
  has_Dir (underlying w) = true ->
  let '(out, w', u', t) := run h (Readdir path ofst fh w) u in
  w' = w /\
  match (h (Dir_ReadDir path) u).1 with
  | inl entries =>
      out = Returns (- fuse_ENOSYS) /\
      map event_call t =
      Dir_ReadDir path :: map (fun e => fill (Name e) (fileInfoToStat e) 0) entries
  | inr err =>
      out = Returns (convertError (Some err)) /\
      t = [Ev (Dir_ReadDir path) (inr err)]
  end.
Proof.
  intros Hdir. unfold Readdir, bind, capabilities; cbn. rewrite Hdir; cbn.
  destruct (h (Dir_ReadDir path) u) as [[entries | err] u1]; cbn; [| done].
  rewrite !run_bind.
  pose proof (post_run _ _ (for_range_fill_post entries w) U h u1) as Hp.
  destruct (run h (for_range entries _ w) u1) as [[ow u2] t1].
  simpl in Hp. destruct Hp as [-> Ht]. cbn.
  rewrite app_nil_r. by rewrite Ht.
Qed.

(** ** Truncate *)

Lemma no_handle_all_ones :
  no_handle = 2 ^ 64 - 1 /\
  forall i, 0 <= i < 64 -> Z.testbit no_handle i = true.
Proof.
  split; [reflexivity |].
  intros i Hi. change no_handle with (Z.ones 64).
  apply Z.ones_spec_low. lia.
Qed.

(** C7, as the code has it: with the "no handle" value, all 64 bits
    set, [Truncate] opens the path for writing, truncates and closes,
    whatever the table holds: when the open fails its error is
    translated and nothing else is called; otherwise the file is
    truncated, then closed, and the truncation's error is translated,
    while the answer of the deferred [Close] is dropped.  With any other
    handle it truncates the stored file, or returns -EINVAL when the
    handle is not in the table.  The table is left as it was. *)
Theorem Truncate_paths {U} (h : handler U) (u : U) (w : wrapper)
  (path : string) (size fd : Z) :
  consistent w ->
  (forall i, 0 <= i < 64 -> Z.testbit no_handle i = true) /\
  run h (Truncate path size fd w) u =
  if decide (fd = no_handle) then
    match h (Basic_OpenFile path os_O_WRONLY perm_0777) u with
    | (inr err, u1) =>
        (Returns (convertError (Some err)), w, u1,
         [Ev (Basic_OpenFile path os_O_WRONLY perm_0777) (inr err)])
    | (inl fh, u1) =>
        let '(terr, u2) := h (File_Truncate fh size) u1 in
        let '(cerr, u3) := h (File_Close fh) u2 in
        (Returns (convertError terr), w, u3,
         [Ev (Basic_OpenFile path os_O_WRONLY perm_0777) (inl fh);
          Ev (File_Truncate fh size) terr;
          Ev (File_Close fh) cerr])
    end
  else
    match fileDescriptors w !! fd with
    | Some fh =>
        let '(terr, u1) := h (File_Truncate fh size) u in
        (Returns (convertError terr), w, u1, [Ev (File_Truncate fh size) terr])
    | None => (Returns (- fuse_EINVAL), w, u, [])
    end.
Proof.
  intros Hc. split; [apply no_handle_all_ones |].
  unfold Truncate. case_bool_decide as Hfd; case_decide; try done.
  - unfold bind. rewrite getFileDescriptor_eq by done; cbn.
    destruct (fileDescriptors w !! fd) as [fh |]; cbn; [| done].
    by destruct (h (File_Truncate fh size) u) as [terr u1].
  - cbn. destruct (h (Basic_OpenFile path os_O_WRONLY perm_0777) u)
      as [[fh | err] u1]; cbn; [| done].
    destruct (h (File_Truncate fh size) u1) as [terr u2]; cbn.
    by destruct (h (File_Close fh) u2) as [cerr u3].
Qed.

(** ** Read *)

(** C8: [Read] with a handle in the table returns the byte count when
    the positioned read gave a positive count or hit the end of the
    stream (so the end of the stream with no bytes read is the count 0),
    and the translated error otherwise; with a handle that is not in
    the table it returns -EINVAL. *)
Theorem Read_result {U} (h : handler U) (u : U) (w : wrapper)
  (path : string) (buff : list Byte.byte) (ofst fd : Z) :
  consistent w ->
  Read_reports 0 (Some io_EOF) = 0 /\
  run h (Read path buff ofst fd w) u =
  match fileDescriptors w !! fd with
  | Some fh =>
      let '(buff', n, err, u1) := h (File_ReadAt fh buff ofst) u in
      (Returns (Read_reports n err, buff'), w, u1,
       [Ev (File_ReadAt fh buff ofst) (buff', n, err)])
  | None => (Returns (- fuse_EINVAL, buff), w, u, [])
  end.
Proof.
  intros Hc. split.
  { unfold Read_reports. case_decide as H; [done |]. destruct H. by right. }
  unfold Read, bind. rewrite getFileDescriptor_eq by done; cbn.
  destruct (fileDescriptors w !! fd) as [fh |]; cbn; [| done].
  destruct (h (File_ReadAt fh buff ofst) u) as [[[buff' n] err] u1]; cbn.
  unfold Read_reports.
  destruct (Z.ltb_spec 0 n) as [Hn | Hn]; cbn.
  - case_decide as H; [done |]. destruct H. by left.
  - case_bool_decide as He; cbn.
    + case_decide as H; [done |]. destruct H. by right.
    + case_decide as H; [| done]. destruct H as [H | H]; [lia | done].
Qed.

(** ** Release *)

(** C9: [Release] of a handle in the table deletes the entry and its
    write lock and returns the translated error of [Close], whatever
    [Close] answers; a later lookup of the handle finds nothing. *)
Theorem Release_removes {U} (h : handler U) (u : U) (w : wrapper)
  (path : string) (fd : Z) (fh : File) :
  consistent w ->
  fileDescriptors w !! fd = Some fh ->
  let '(cerr, u1) := h (File_Close fh) u in
  run h (Release path fd w) u =
  (Returns (convertError cerr), released fd w, u1, [Ev (File_Close fh) cerr]) /\
  fileDescriptors (released fd w) !! fd = None /\
  writeLocks (released fd w) !! fd = None /\
  (forall u2, run h (getFileDescriptor fd (released fd w)) u2 =
              (Returns None, released fd w, u2, [])).
Proof.
  intros Hc Hfd.
  assert (consistent (released fd w)) as Hc'.
  { eapply effect_consistent; [done |].
    by apply (effect_release w (op_Release path fd) [] path fd fh 0). }
  destruct (h (File_Close fh) u) as [cerr u1] eqn:Hh.
  split; [| split; [| split]].
  - destruct Hc as [Hfree Hkeys Hlocks Hg].
    destruct w as [caps [lk] fds n wl ms ug tn]; simpl in *; subst lk ug.
    unfold Release, bind, defer; cbn. rewrite Hfd; cbn. rewrite Hh; cbn.
    by end_section Hkeys.
  - simpl. apply lookup_delete_eq.
  - simpl. apply lookup_delete_eq.
  - intros u2. rewrite getFileDescriptor_eq by done. simpl.
    by rewrite lookup_delete_eq.
Qed.

(** ** Mkdir *)

(** C10: with a filesystem that creates directories, [Mkdir] makes one
    call, [MkdirAll] with its own path and mode, and translates the
    answer.  So, for a [MkdirAll] that keeps its contract (it succeeds
    when the target is a directory already, and when it succeeds the
    path and all its parents are directories), [Mkdir] returns 0 for a
    directory that exists and leaves every missing parent created. *)
Theorem Mkdir_delegates_to_MkdirAll {U} (h : handler U)
  (is_directory : U -> string -> bool) (dirs_on : string -> list string)
  (u : U) (w : wrapper) (path : string) (mode : Z) :
  has_Dir (underlying w) = true ->
  (forall u0 p perm,
     is_directory u0 p = true -> (h (Dir_MkdirAll p perm) u0).1 = None) ->
  (forall u0 p perm d,
     (h (Dir_MkdirAll p perm) u0).1 = None ->
     In d (dirs_on p) ->
     is_directory (h (Dir_MkdirAll p perm) u0).2 d = true) ->
  let '(out, w', u', t) := run h (Mkdir path mode w) u in
  let err := (h (Dir_MkdirAll path mode) u).1 in
  t = [Ev (Dir_MkdirAll path mode) err] /\
  u' = (h (Dir_MkdirAll path mode) u).2 /\
  w' = w /\
  out = Returns (convertError err) /\
  (err = None ->
   out = Returns 0 /\
   forall d, In d (dirs_on path) -> is_directory u' d = true) /\
  (is_directory u path = true -> out = Returns 0).
Proof.
  intros Hdir Hexists Hparents.
  unfold Mkdir, bind, capabilities; cbn. rewrite Hdir; cbn.
  pose proof (Hexists u path mode) as He.
  pose proof (Hparents u path mode) as Hp.
  destruct (h (Dir_MkdirAll path mode) u) as [r u1]; cbn in *.
  do 4 (split; [done |]). split.
  - intros ->. split; [done |]. intros d Hd. by apply Hp.
  - intros Hd. by rewrite (He Hd).
Qed.

(** ** The two maps of the handle table *)

Lemma sound_from_Forall (w : wrapper) (ss : list step) :
  consistent w ->
  sound_from w ss ->
  Forall (fun s =>
            consistent (step_before s) /\
            effect (step_before s) (step_op s) (step_events s)
              (step_outcome s) (step_after s)) ss.
Proof.
  intros Hc Hs. induction Hs as [w | w s ss Hw He Hs IH].
  - constructor.
  - subst w. constructor; [done |].
    apply IH. by eapply effect_consistent.
Qed.

Lemma sound_from_chained (w : wrapper) (ss : list step) :
  sound_from w ss -> chained w ss.
Proof. induction 1; simpl; auto. Qed.

Lemma session_sound {U} (h : handler U) (caps : Capabilities)
  (ops : list op) (u : U) :
  sound_from (New caps) (session h caps ops u).
Proof. apply run_ops_sound, New_consistent. Qed.

Lemma effect_new_entry (w w' : wrapper) (o : op) (t : list event)
  (r : outcome retval) (fd : Z) :
  effect w o t r w' ->
  fd ∈ dom (fileDescriptors w') ->
  fd ∉ dom (fileDescriptors w) ->
  exists l,
    writeLocks w' !! fd = Some l /\
    mutexes w !! l = None /\
    mutexes w' !! l = Some new_Mutex.
Proof.
  intros He Hin Hout.
  destruct He as [r _ _ _ | path fd' fh n _ _ | fd' _ _ | fd' fh _ _];
    simpl in *.
  - done.
  - rewrite dom_delete_L in Hin. apply elem_of_difference in Hin as [Hin _].
    done.
  - done.
  - rewrite dom_insert_L in Hin.
    apply elem_of_union in Hin as [Hin | Hin]; [| done].
    apply elem_of_singleton in Hin as ->.
    exists (length (mutexes w)). split; [apply lookup_insert_eq |]. split.
    + by apply lookup_ge_None.
    + by rewrite lookup_app_r, Nat.sub_diag.
Qed.

Lemma effect_Release_entry (w w' : wrapper) (t : list event)
  (r : outcome retval) (path : string) (fd : Z) :
  effect w (op_Release path fd) t r w' ->
  fd ∈ dom (fileDescriptors w) ->
  (fd ∉ dom (fileDescriptors w')) /\ (fd ∉ dom (writeLocks w')).
Proof.
  intros He Hin. inversion He as [r' _ _ Hrel | path' fd' fh n Ho _ | |];
    subst; simpl in *.
  - apply elem_of_dom in Hin as [fh Hfh].
    rewrite (Hrel path fd eq_refl) in Hfh. done.
  - injection Ho as <- <-. rewrite !dom_delete_L.
    split; intros [_ Hne]%elem_of_difference; apply Hne;
      by apply elem_of_singleton.
  - done.
  - done.
Qed.

Lemma effect_torn (w w' : wrapper) (o : op) (t : list event)
  (r : outcome retval) :
  effect w o t r w' -> torn w' = torn w.
Proof. by intros []. Qed.

Lemma sound_from_intact (w : wrapper) (ss : list step) :
  torn w = false ->
  sound_from w ss ->
  Forall (fun s => torn (step_after s) = false) ss.
Proof.
  intros Ht Hs. induction Hs as [w | w s ss Hw He Hs IH].
  - constructor.
  - subst w. pose proof (effect_torn _ _ _ _ _ He) as Ht'.
    rewrite Ht in Ht'. constructor; [done |]. by apply IH.
Qed.

(** C4: the two maps change in the same critical section.  In every
    session, every critical section of the table lock ends with the
    file map and the write-lock map on the same keys ([torn] is never
    set, and it would be by an unlock between an insertion into one map
    and the insertion into the other, or between the two deletions),
    and the maps are touched inside critical sections only ([unguarded]
    is never set).  So between any two callbacks the two maps have the
    same keys; a handle that a callback adds to the file map gets a
    write lock that did not exist before and that nobody holds;
    [Release] of a handle in the table takes it out of both maps,
    whatever [Close] answers. *)
Theorem write_locks_follow_handles {U} (h : handler U)
  (caps : Capabilities) (ops : list op) (u : U) :
  dom (fileDescriptors (New caps)) = dom (writeLocks (New caps)) /\
  chained (New caps) (session h caps ops u) /\
  Forall
    (fun s =>
       torn (step_after s) = false /\
       unguarded (step_after s) = false /\
       dom (fileDescriptors (step_after s)) = dom (writeLocks (step_after s)) /\
       (forall fd,
          fd ∈ dom (fileDescriptors (step_after s)) ->
          fd ∉ dom (fileDescriptors (step_before s)) ->
          exists l,
            writeLocks (step_after s) !! fd = Some l /\
            mutexes (step_before s) !! l = None /\
            mutexes (step_after s) !! l = Some new_Mutex) /\
       (forall path fd,
          step_op s = op_Release path fd ->
          fd ∈ dom (fileDescriptors (step_before s)) ->
          (fd ∉ dom (fileDescriptors (step_after s))) /\
          (fd ∉ dom (writeLocks (step_after s)))))
    (session h caps ops u).
Proof.
  split; [apply (same_keys _ (New_consistent caps)) |].
  split; [apply sound_from_chained, session_sound |].
  pose proof (sound_from_Forall _ _ (New_consistent caps)
                (session_sound h caps ops u)) as Hsteps.
  pose proof (sound_from_intact (New caps) _ eq_refl
                (session_sound h caps ops u)) as Hintact.
  rewrite Forall_forall in Hsteps, Hintact. apply Forall_forall.
  intros s Hs. destruct (Hsteps s Hs) as [Hc He].
  pose proof (effect_consistent _ _ _ _ _ Hc He) as Hc'.
  split; [by apply Hintact |]. split; [by apply all_guarded |].
  split; [| split].
  - by apply same_keys.
  - intros fd. by eapply effect_new_entry.
  - intros path fd Ho. rewrite Ho in He. by eapply effect_Release_entry.
Qed.

(** ** The handle counter *)

Lemma New_issued (caps : Capabilities) : issued (New caps).
Proof.
  split; simpl; [done |]. intros fd Hfd.
  rewrite dom_empty_L in Hfd. by apply not_elem_of_empty in Hfd.
Qed.

Lemma effect_step_handle (w w' : wrapper) (s : step) :
  effect w (step_op s) (step_events s) (step_outcome s) w' ->
  match step_handle s with
  | Some fd => fd = uint64 (nextFd w + 1) /\ nextFd w' = fd
  | None => nextFd w' = nextFd w
  end.
Proof.
  unfold step_handle. intros He.
  destruct He as [r Ha _ _ | path fd fh n Ho _ | fd Ha Hfd | fd fh Ha Hfd].
  - by rewrite Ha.
  - by rewrite Ho.
  - by rewrite Ha.
  - by rewrite Ha.
Qed.

Lemma effect_no_handle (w w' : wrapper) (s : step) :
  effect w (step_op s) (step_events s) (step_outcome s) w' ->
  step_handle s = None ->
  allocates (step_op s) (step_events s) = false.
Proof.
  unfold step_handle. intros He.
  destruct He as [r Ha _ _ | path fd fh n Ho _ | fd Ha Hfd | fd fh Ha Hfd].
  - done.
  - by rewrite Ho.
  - by rewrite Ha.
  - by rewrite Ha.
Qed.

Lemma effect_issued (w w' : wrapper) (o : op) (t : list event)
  (r : outcome retval) :
  issued w -> nextFd w <= nextFd w' ->
  (allocates o t = true -> nextFd w < nextFd w') ->
  effect w o t r w' -> issued w'.
Proof.
  intros [Hn Hk] Hle Hlt He. split; [lia |].
  destruct He as [r _ _ _ | path fd fh n _ _ | fd _ _ | fd fh Ha _];
    simpl in *; intros k Hin.
  - auto.
  - rewrite dom_delete_L in Hin. apply elem_of_difference in Hin as [Hin _].
    auto.
  - specialize (Hk k Hin). lia.
  - rewrite dom_insert_L in Hin. specialize (Hlt Ha).
    apply elem_of_union in Hin as [Hin | Hin].
    + apply elem_of_singleton in Hin as ->. lia.
    + specialize (Hk k Hin). lia.
Qed.

Lemma effect_guarded (w w' : wrapper) (o : op) (t : list event)
  (r : outcome retval) :
  consistent w -> effect w o t r w' -> unguarded w' = false.
Proof. intros Hc He. eapply all_guarded, effect_consistent; done. Qed.

Lemma handles_cons (s : step) (ss : list step) :
  handles (s :: ss) =
  match step_handle s with
  | Some fd => fd :: handles ss
  | None => handles ss
  end.
Proof. reflexivity. Qed.

Lemma sound_from_counter (w : wrapper) (ss : list step) :
  consistent w -> issued w ->
  sound_from w ss ->
  nextFd w + Z.of_nat (length (handles ss)) < 2 ^ 64 ->
  Forall (fun fd => nextFd w < fd) (handles ss) /\
  NoDup (handles ss) /\
  Forall
    (fun s =>
       nextFd (step_before s) <= nextFd (step_after s) /\
       (forall fd,
          step_handle s = Some fd ->
          nextFd (step_before s) < fd /\
          nextFd (step_after s) = fd /\
          fd ∉ dom (fileDescriptors (step_before s))) /\
       (step_handle s = None ->
        nextFd (step_after s) = nextFd (step_before s)) /\
       unguarded (step_after s) = false) ss.
Proof.
  intros Hc Hi Hs. revert Hc Hi.
  induction Hs as [w | w s ss Hw He Hs IH]; intros Hc Hi Hbound.
  - split; [constructor |]. split; constructor.
  - subst w. pose proof (effect_step_handle _ _ _ He) as Hh.
    pose proof (effect_consistent _ _ _ _ _ Hc He) as Hc'.
    pose proof (effect_guarded _ _ _ _ _ Hc He) as Hg.
    pose proof Hi as [Hn Hk].
    rewrite handles_cons in *.
    destruct (step_handle s) as [fd |] eqn:Hsh.
    + destruct Hh as [Hfd Hnext]. simpl in Hbound.
      unfold uint64 in Hfd. rewrite Z.mod_small in Hfd by lia.
      assert (issued (step_after s)) as Hi'
          by (eapply effect_issued; [done | lia | lia | done]).
      destruct IH as (Hgt & Hnd & Hall); [done | done | lia |].
      split; [| split].
      * constructor; [lia |].
        eapply Forall_impl; [apply Hgt |]. simpl. intros k Hk'. lia.
      * constructor; [| done]. intros Hin.
        rewrite Forall_forall in Hgt. apply Hgt in Hin. lia.
      * constructor; [| done].
        split; [lia |]. split; [| split; [congruence | done]].
        intros k Hk'. assert (k = fd) as -> by congruence.
        split; [lia |]. split; [done |].
        intros Hin. specialize (Hk _ Hin). lia.
    + pose proof (effect_no_handle _ _ _ He Hsh) as Hna.
      assert (issued (step_after s)) as Hi'
          by (eapply effect_issued; [done | lia | by rewrite Hna | done]).
      destruct IH as (Hgt & Hnd & Hall); [done | done | lia |].
      split; [| split].
      * eapply Forall_impl; [apply Hgt |]. simpl. intros k Hk'. lia.
      * done.
      * constructor; [| done].
        split; [lia |]. split; [congruence |]. split; [done | done].
Qed.

(** C3: within the lifetime of a mount, in which fewer than 2^64 handles
    are allocated (the 64-bit space is not exhausted), the handles that
    [Create], [Open] and [Opendir] return are pairwise distinct; from
    one callback to the next the counter never
    decreases, changes only when a handle is allocated, and then
    becomes that handle, which is larger than the counter was and is
    not a key of the table; the counter and the maps are only touched
    while the table lock is held. *)
Theorem handles_distinct_below_wrap {U} (h : handler U)
  (caps : Capabilities) (ops : list op) (u : U) :
  Z.of_nat (length (handles (session h caps ops u))) < 2 ^ 64 ->
  NoDup (handles (session h caps ops u)) /\
  chained (New caps) (session h caps ops u) /\
  Forall
    (fun s =>
       nextFd (step_before s) <= nextFd (step_after s) /\
       (forall fd,
          step_handle s = Some fd ->
          nextFd (step_before s) < fd /\
          nextFd (step_after s) = fd /\
          fd ∉ dom (fileDescriptors (step_before s))) /\
       (step_handle s = None ->
        nextFd (step_after s) = nextFd (step_before s)) /\
       unguarded (step_after s) = false)
    (session h caps ops u).
Proof.
  intros Hbound.
  destruct (sound_from_counter (New caps) (session h caps ops u))
    as (_ & Hnd & Hall).
  - apply New_consistent.
  - apply New_issued.
  - apply session_sound.
  - done.
  - split; [done |]. split; [| done].
    apply sound_from_chained, session_sound.
Qed.

(** ** Write with a handle that is not in the table *)

Lemma Write_absent_panics {U} (h : handler U) (u : U) (w : wrapper)
  (path : string) (buff : list Byte.byte) (ofst fd : Z) :
  consistent w ->
  fileDescriptors w !! fd = None ->
  run h (Write path buff ofst fd w) u = (Panics, w, u, []).
Proof.
  intros Hc Hfd. unfold Write, bind.
  by rewrite getFileDescriptorWithLock_absent.
Qed.

(** ** The counter wraps around *)

Lemma set_nextFd_consistent (n : Z) (w : wrapper) :
  consistent w -> consistent (set_nextFd n w).
Proof. by intros []. Qed.

(** [n] calls of [Opendir] in a row hand out the next [n] values of the
    64-bit counter. *)
Lemma run_ops_Opendir {U} (h : handler U) (path : string) (n : nat)
  (w : wrapper) (u : U) :
  consistent w ->
  handles (run_ops h (repeat (op_Opendir path) n) w u).1.1 =
  map (fun i => uint64 (nextFd w + Z.of_nat i)) (seq 1 n).
Proof.
  revert w u. induction n as [| n IH]; intros w u Hc.
  - reflexivity.
  - cbn [repeat run_ops]. unfold exec at 1, fmap_M, bind.
    rewrite Opendir_eq by done. cbn [prog_bind ret run].
    specialize (IH (set_nextFd (uint64 (nextFd w + 1)) w) u
                  (set_nextFd_consistent _ _ Hc)).
    destruct (run_ops h (repeat (op_Opendir path) n) _ u) as [[ss w2] u2].
    cbn [fst] in *. rewrite handles_cons. cbn.
    rewrite IH. f_equal. rewrite <- (seq_shift n 1), map_map.
    apply map_ext. intros i. cbn [nextFd set_nextFd]. unfold uint64.
    rewrite Zplus_mod_idemp_l. f_equal. lia.
Qed.

(** After 2^64 allocations the counter is back where it started, and
    the next handle is one that was handed out before. *)
Lemma Opendir_repeats_a_handle {U} (h : handler U) (caps : Capabilities)
  (path : string) (n : nat) (u : U) :
  2 ^ 64 < Z.of_nat n ->
  ~ NoDup (handles (session h caps (repeat (op_Opendir path) n) u)).
Proof.
  intros Hn Hnd. unfold session in Hnd.
  rewrite run_ops_Opendir in Hnd by apply New_consistent.
  cbn [nextFd New] in Hnd.
  set (f := fun i : nat => uint64 (0 + Z.of_nat i)) in Hnd.
  assert (Z.to_nat (2 ^ 64) < n)%nat as Hlt by lia.
  apply NoDup_ListNoDup in Hnd.
  pose proof (proj1 (NoDup_nth (map f (seq 1 n)) (f 0%nat)) Hnd
                0%nat (Z.to_nat (2 ^ 64))) as Hinj.
  rewrite length_map, length_seq in Hinj.
  rewrite !map_nth, !seq_nth in Hinj by lia.
  assert (0 = Z.to_nat (2 ^ 64))%nat as Hzero.
  { apply Hinj; [lia | lia |]. unfold f, uint64.
    replace (0 + Z.of_nat (1 + Z.to_nat (2 ^ 64))) with (1 + 1 * 2 ^ 64)
      by lia.
    replace (0 + Z.of_nat (1 + 0)) with 1 by lia.
    by rewrite Z_mod_plus_full. }
  lia.
Qed.

End Proofs.

(** * More of the wrapper *)

Section Coverage.

Context `{PF : Platform} `{GE : GoError} `{BF : BillyFile}.

#[local] Arguments Mutex_Unlock : simpl never.
#[local] Arguments convertError : simpl never.
#[local] Arguments at_release : simpl never.

Ltac close_section Hkeys :=
  rewrite at_release_agree
    by (cbn; rewrite ?dom_insert_L, ?dom_delete_L; congruence).

(** ** Callbacks that need an optional interface *)

(** X1: when the underlying filesystem lacks the interface a callback
    needs, the callback returns -ENOSYS without calling anything and
    without touching the wrapper: [Mkdir] and [Readdir] for
    [billy.Dir], [Symlink] and [Readlink] for [billy.Symlink], [Chmod],
    [Chown] and [Utimens] (whatever the number of timestamps) for
    [billy.Change]. *)
Theorem missing_capability_is_ENOSYS (w : wrapper) :
  (has_Dir (underlying w) = false ->
   (forall path mode, Mkdir path mode w = Ret (Returns (- fuse_ENOSYS), w)) /\
   (forall path ofst fh,
      Readdir path ofst fh w = Ret (Returns (- fuse_ENOSYS), w))) /\
  (has_Symlink (underlying w) = false ->
   (forall target newpath,
      Symlink target newpath w = Ret (Returns (- fuse_ENOSYS), w)) /\
   (forall path,
      Readlink path w = Ret (Returns (- fuse_ENOSYS, EmptyString), w))) /\
  (has_Change (underlying w) = false ->
   (forall path mode, Chmod path mode w = Ret (Returns (- fuse_ENOSYS), w)) /\
   (forall path uid gid,
      Chown path uid gid w = Ret (Returns (- fuse_ENOSYS), w)) /\
   (forall path tmsp,
      Utimens path tmsp w = Ret (Returns (- fuse_ENOSYS), w))).
Proof.
  split; [| split]; intros H.
  - split; intros; [unfold Mkdir | unfold Readdir];
      unfold bind, capabilities; cbn; by rewrite H.
  - split; intros; [unfold Symlink | unfold Readlink];
      unfold bind, capabilities; cbn; by rewrite H.
  - split; [| split]; intros; [unfold Chmod | unfold Chown | unfold Utimens];
      unfold bind, capabilities; cbn; by rewrite H.
Qed.

(** [Timespec.Time] gives a time whose seconds fit an [int64] and whose
    nanoseconds lie in [0, 10^9); a timespec that is already of that
    form is passed on as it is, any other has its nanoseconds carried
    into the seconds, wrapping around at the ends of [int64]. *)
Lemma Timespec_Time_range (ts : Timespec) :
  - 2 ^ 63 <= Unix (Timespec_Time ts) < 2 ^ 63 /\
  0 <= Nanosecond (Timespec_Time ts) < 1000000000 /\
  (- 2 ^ 63 <= Sec ts < 2 ^ 63 -> 0 <= Nsec ts < 1000000000 ->
   Timespec_Time ts = {| Unix := Sec ts; Nanosecond := Nsec ts |}).
Proof.
  unfold Timespec_Time, int64; simpl. split; [| split].
  - assert (0 <= (Sec ts + Nsec ts / 1000000000 + 2 ^ 63) mod 2 ^ 64
            < 2 ^ 64) by (apply Z.mod_pos_bound; lia).
    lia.
  - apply Z.mod_pos_bound. lia.
  - intros Hs Hn. rewrite (Z.div_small (Nsec ts)), (Z.mod_small (Nsec ts))
      by lia.
    rewrite Z.add_0_r, Z.mod_small by lia.
    f_equal. lia.
Qed.

(** X2: with a filesystem that can change times, [Utimens] returns
    -EINVAL without calling anything unless it is given exactly two
    timestamps; given two, it makes one [Chtimes] call with the times
    that [Timespec.Time] makes of them, access time first, and
    translates the answer. *)
Theorem Utimens_needs_two_timestamps {U} (h : handler U) (u : U)
  (w : wrapper) (path : string) (tmsp : list Timespec) :
  has_Change (underlying w) = true ->
  (length tmsp <> 2%nat ->
   run h (Utimens path tmsp w) u = (Returns (- fuse_EINVAL), w, u, [])) /\
  (forall t0 t1,
     tmsp = [t0; t1] ->
     let c := Change_Chtimes path (Timespec_Time t0) (Timespec_Time t1) in
     run h (Utimens path tmsp w) u =
     (Returns (convertError (h c u).1), w, (h c u).2, [Ev c (h c u).1])).
Proof.
  intros H. unfold Utimens, bind, capabilities; cbn. rewrite H. split.
  - intros Hlen. by destruct tmsp as [| t0 [| t1 [| t2 tmsp]]].
  - intros t0 t1 ->. cbn.
    by destruct (h (Change_Chtimes _ _ _) u) as [err u1].
Qed.

(** ** Opening *)

(** X3: [Create] opens with the flags or-ed with O_CREATE and O_RDWR and
    with the mode it was given.  When the open fails it returns the
    translated error with handle 0 and leaves the wrapper as it was.
    When it succeeds it returns 0 with the next value of the counter,
    under which a lookup then finds the opened file, and every other
    handle maps to what it mapped to before. *)
Theorem Create_registers_file {U} (h : handler U) (u : U) (w : wrapper)
  (path : string) (flags mode : Z) :
  consistent w ->
  let c :=
    Basic_OpenFile path (Z.lor (Z.lor flags os_O_CREATE) os_O_RDWR) mode in
  let fd := uint64 (nextFd w + 1) in
  run h (Create path flags mode w) u =
  match h c u with
  | (inl fh, u1) =>
      (Returns (0, fd), registered fd fh w, u1, [Ev c (inl fh)])
  | (inr err, u1) =>
      (Returns (convertError (Some err), 0), w, u1, [Ev c (inr err)])
  end /\
  (forall fh u2,
     run h (getFileDescriptor fd (registered fd fh w)) u2 =
     (Returns (Some fh), registered fd fh w, u2, [])) /\
  (forall fh fd',
     fd' <> fd ->
     fileDescriptors (registered fd fh w) !! fd' = fileDescriptors w !! fd').
Proof.
  intros Hc c fd. split; [| split].
  - unfold Create, bind, ask; cbn. fold c.
    destruct (h c u) as [[fh | err] u1]; cbn; [| done].
    by rewrite createFileDescriptor_eq.
  - intros fh u2. rewrite getFileDescriptor_eq.
    + simpl. by rewrite lookup_insert_eq.
    + apply (effect_consistent w _ (op_Opendir EmptyString) []
               (Returns (rv_int_fd 0 fd))); [done |].
      by apply effect_register.
  - intros fh fd' Hne. simpl. by rewrite lookup_insert_ne.
Qed.

Lemma registered_consistent (fh : File) (w : wrapper) :
  consistent w ->
  consistent (registered (uint64 (nextFd w + 1)) fh w).
Proof.
  intros Hc.
  apply (effect_consistent w _ (op_Opendir EmptyString) []
           (Returns (rv_int_fd 0 (uint64 (nextFd w + 1))))); [done |].
  by apply effect_register.
Qed.

(** X4: [Open] opens with the flags or-ed with O_RDONLY and permission
    0777; a failed open gives the translated error with handle 0 and no
    change.  After a successful [Open], [Read] with the returned handle
    reads from the file that [Open] opened, at the offset it is given. *)
Theorem Open_then_Read {U} (h : handler U) (u : U) (w : wrapper)
  (path : string) (flags : Z) (buff : list Byte.byte) (ofst : Z) :
  consistent w ->
  let c := Basic_OpenFile path (Z.lor flags os_O_RDONLY) perm_0777 in
  match h c u with
  | (inl fh, u1) =>
      let fd := uint64 (nextFd w + 1) in
      let w1 := registered fd fh w in
      let '(buff', n, err, u2) := h (File_ReadAt fh buff ofst) u1 in
      run h (Open path flags w) u = (Returns (0, fd), w1, u1, [Ev c (inl fh)]) /\
      run h (Read path buff ofst fd w1) u1 =
      (Returns (Read_reports n err, buff'), w1, u2,
       [Ev (File_ReadAt fh buff ofst) (buff', n, err)])
  | (inr err, u1) =>
      run h (Open path flags w) u =
      (Returns (convertError (Some err), 0), w, u1, [Ev c (inr err)])
  end.
Proof.
  intros Hc c. unfold Open, bind, ask; cbn. fold c.
  destruct (h c u) as [[fh | err] u1] eqn:Hh; cbn; [| done].
  destruct (h (File_ReadAt fh buff ofst) u1) as [[[buff' n] err] u2] eqn:Hr.
  rewrite createFileDescriptor_eq by done; cbn.
  split; [done |].
  unfold Read, bind.
  rewrite getFileDescriptor_eq by (by apply registered_consistent).
  cbn. rewrite lookup_insert_eq; cbn. rewrite Hr; cbn.
  unfold Read_reports.
  destruct (Z.ltb_spec 0 n) as [Hn | Hn]; cbn.
  - case_decide as H; [done |]. destruct H. by left.
  - case_bool_decide as He; cbn.
    + case_decide as H; [done |]. destruct H. by right.
    + case_decide as H; [| done]. destruct H as [H | H]; [lia | done].
Qed.

(** ** Handles that are not in the table *)

Lemma Release_absent_eq (path : string) (fd : Z) (w : wrapper) :
  consistent w ->
  fileDescriptors w !! fd = None ->
  Release path fd w = Ret (Returns (- fuse_EINVAL), w).
Proof.
  intros [Hfree Hkeys Hlocks Hg] Hfd.
  destruct w as [caps [lk] fds n wl ms ug tn]; simpl in *; subst lk ug.
  unfold Release, bind, defer; cbn. rewrite Hfd; cbn.
  by close_section Hkeys.
Qed.

(** X5: [Release] with a handle that is not in the table returns
    -EINVAL; it closes nothing and leaves the wrapper as it was. *)
Theorem Release_unknown_handle {U} (h : handler U) (u : U) (w : wrapper)
  (path : string) (fd : Z) :
  consistent w ->
  fileDescriptors w !! fd = None ->
  run h (Release path fd w) u = (Returns (- fuse_EINVAL), w, u, []).
Proof.
  intros Hc Hfd. by rewrite Release_absent_eq.
Qed.

Lemma released_consistent (fd : Z) (fh : File) (w : wrapper) :
  consistent w ->
  fileDescriptors w !! fd = Some fh ->
  consistent (released fd w).
Proof.
  intros Hc Hfd. eapply effect_consistent; [done |].
  by apply (effect_release w (op_Release EmptyString fd) [] EmptyString
              fd fh 0).
Qed.

Lemma Release_present_state {U} (h : handler U) (u : U) (w : wrapper)
  (path : string) (fd : Z) (fh : File) :
  consistent w ->
  fileDescriptors w !! fd = Some fh ->
  (run h (Release path fd w) u).1.1.2 = released fd w /\
  (run h (Release path fd w) u).1.2 = (h (File_Close fh) u).2.
Proof.
  intros [Hfree Hkeys Hlocks Hg] Hfd.
  destruct w as [caps [lk] fds n wl ms ug tn]; simpl in *; subst lk ug.
  unfold Release, bind, defer; cbn. rewrite Hfd; cbn.
  destruct (h (File_Close fh) u) as [cerr u1]; cbn.
  by close_section Hkeys.
Qed.

(** X6: once [Release] has run on a handle of the table, the handle is
    dead: [Read], [Truncate] and a second [Release] with it return
    -EINVAL, call nothing, and change nothing, whether or not the
    [Close] of the first [Release] succeeded. *)
Theorem released_handle_is_invalid {U} (h : handler U) (u : U) (w : wrapper)
  (path : string) (fd : Z) (fh : File) (buff : list Byte.byte)
  (ofst size : Z) :
  consistent w ->
  fileDescriptors w !! fd = Some fh ->
  fd <> no_handle ->
  let '(_, w1, u1, _) := run h (Release path fd w) u in
  run h (Read path buff ofst fd w1) u1 =
    (Returns (- fuse_EINVAL, buff), w1, u1, []) /\
  run h (Truncate path size fd w1) u1 = (Returns (- fuse_EINVAL), w1, u1, []) /\
  run h (Release path fd w1) u1 = (Returns (- fuse_EINVAL), w1, u1, []).
Proof.
  intros Hc Hfd Hne.
  pose proof (Release_present_state h u w path fd fh Hc Hfd) as [Hw _].
  pose proof (released_consistent fd fh w Hc Hfd) as Hc1.
  destruct (run h (Release path fd w) u) as [[[out w1] u1] t].
  simpl in Hw. subst w1.
  assert (fileDescriptors (released fd w) !! fd = None) as Hgone
      by apply lookup_delete_eq.
  split; [| split].
  - unfold Read, bind. rewrite getFileDescriptor_eq by done; cbn.
    by rewrite lookup_delete_eq.
  - unfold Truncate. rewrite bool_decide_true by done.
    unfold bind. rewrite getFileDescriptor_eq by done; cbn.
    by rewrite lookup_delete_eq.
  - by rewrite Release_absent_eq.
Qed.

(** ** Write through a handle of the table *)

(** X7: [Write] with a handle of the table.  When the file has a
    [WriteAt] method, that is the only call; otherwise [Seek] to the
    offset from the start comes first and [Write] follows only when the
    seek succeeded.  The result is the translated error of the failing
    call or else the byte count of the write.  On every one of these
    paths the wrapper is afterwards what it was before: the table is
    unchanged and the handle's write lock is free again. *)
Theorem Write_through_handle {U} (h : handler U) (u : U) (w : wrapper)
  (path : string) (buff : list Byte.byte) (ofst fd : Z) (fh : File) :
  consistent w ->
  fileDescriptors w !! fd = Some fh ->
  run h (Write path buff ofst fd w) u =
  if is_WriterAt fh then
    let '(n, err, u1) := h (File_WriteAt fh buff ofst) u in
    (Returns (match err with
              | Some e => convertError (Some e)
              | None => n
              end), w, u1,
     [Ev (File_WriteAt fh buff ofst) (n, err)])
  else
    let '(pos, serr, u1) := h (File_Seek fh ofst io_SeekStart) u in
    match serr with
    | Some e =>
        (Returns (convertError (Some e)), w, u1,
         [Ev (File_Seek fh ofst io_SeekStart) (pos, serr)])
    | None =>
        let '(n, err, u2) := h (File_Write fh buff) u1 in
        (Returns (match err with
                  | Some e => convertError (Some e)
                  | None => n
                  end), w, u2,
         [Ev (File_Seek fh ofst io_SeekStart) (pos, serr);
          Ev (File_Write fh buff) (n, err)])
    end.
Proof.
  intros Hc Hfd. unfold Write, bind.
  destruct (getFileDescriptorWithLock_present fd fh w Hc Hfd)
    as (l & Hwl & Hm & ->); cbn.
  destruct (is_WriterAt fh); cbn.
  - rewrite Mutex_Unlock_held by done; cbn.
    by destruct (h (File_WriteAt fh buff ofst) u) as [[n [err |]] u1].
  - unfold defer; cbn.
    destruct (h (File_Seek fh ofst io_SeekStart) u) as [[pos [serr |]] u1];
      cbn.
    + by rewrite Mutex_Unlock_held.
    + destruct (h (File_Write fh buff) u1) as [[n [err |]] u2]; cbn;
        by rewrite Mutex_Unlock_held.
Qed.

(** ** Directory handles *)

(** X8: [Opendir] never consults the filesystem and never fails: it
    returns 0 with the next value of the counter.  Below the wrap of
    the counter that handle is not in the file table, so [Read] with
    it returns -EINVAL. *)
Theorem Opendir_handle_has_no_file {U} (h : handler U) (u : U) (w : wrapper)
  (path : string) (buff : list Byte.byte) (ofst : Z) :
  consistent w ->
  issued w ->
  nextFd w + 1 < 2 ^ 64 ->
  let fd := nextFd w + 1 in
  let w1 := set_nextFd fd w in
  run h (Opendir path w) u = (Returns (0, fd), w1, u, []) /\
  fileDescriptors w1 !! fd = None /\
  run h (Read path buff ofst fd w1) u =
    (Returns (- fuse_EINVAL, buff), w1, u, []).
Proof.
  intros Hc [Hn Hk] Hb fd w1.
  assert (uint64 (nextFd w + 1) = fd) as Hfd
      by (unfold uint64; rewrite Z.mod_small; [done | lia]).
  assert (fileDescriptors w !! fd = None) as Hnone.
  { apply not_elem_of_dom. intros Hin. specialize (Hk _ Hin).
    unfold fd in Hk. lia. }
  split; [| split].
  - rewrite Opendir_eq by done. by rewrite Hfd.
  - done.
  - unfold Read, bind.
    rewrite getFileDescriptor_eq by (by apply set_nextFd_consistent).
    cbn. by rewrite Hnone.
Qed.

(** ** What no callback does *)

(** X9: started between two callbacks, no callback waits for a mutex,
    and every callback, also one that panics, ends with the table lock
    and every write lock of the table free, the two maps on the same
    keys, and the guarded fields touched only under the table lock. *)
Theorem callbacks_release_their_locks {U} (h : handler U) (u : U)
  (w : wrapper) (o : op) :
  consistent w ->
  let '(out, w', _, _) := run h (exec o w) u in
  out <> Blocks /\ consistent w'.
Proof.
  intros Hc.
  pose proof (post_run _ _ (exec_effect o w Hc) U h u) as He.
  destruct (run h (exec o w) u) as [[[out w'] u'] t]; simpl in He.
  split; [| by eapply effect_consistent].
  by destruct He.
Qed.

(** X11: apart from [Create], [Open], [Opendir] and [Release], no
    callback changes the wrapper, whatever the environment answers and
    also when the callback panics. *)
Theorem other_callbacks_keep_the_wrapper {U} (h : handler U) (u : U)
  (w : wrapper) (o : op) :
  consistent w ->
  match o with
  | op_Create _ _ _ | op_Open _ _ | op_Opendir _ | op_Release _ _ => False
  | _ => True
  end ->
  (run h (exec o w) u).1.1.2 = w.
Proof.
  intros Hc Ho.
  pose proof (post_run _ _ (exec_effect o w Hc) U h u) as He.
  destruct (run h (exec o w) u) as [[[out w'] u'] t]; simpl in *.
  destruct He as [r _ _ _ | path fd fh n -> _ | fd Ha _ | fd fh Ha _].
  - done.
  - done.
  - by destruct o.
  - by destruct o.
Qed.

(** ** Panics *)

Ltac answer_all :=
  repeat (cbn;
    match goal with
    | |- forall r : _, _ => intros r
    | |- context [match ?x with _ => _ end] => destruct x eqn:?
    end).

Lemma exec_panics (o : op) (w : wrapper) :
  consistent w ->
  post (exec o w)
    (fun t ow =>
       ow.1 = Panics ->
       exists path buff ofst fd,
         o = op_Write path buff ofst fd /\ fileDescriptors w !! fd = None).
Proof.
  intros Hc. destruct o; unfold exec, fmap_M.
  all: try (cbn; answer_all; done).
  - (* Create *)
    unfold Create, bind, ask; cbn. intros [fh | err]; cbn; [| done].
    by rewrite createFileDescriptor_eq.
  - (* Open *)
    unfold Open, bind, ask; cbn. intros [fh | err]; cbn; [| done].
    by rewrite createFileDescriptor_eq.
  - (* Truncate *)
    unfold Truncate. case_bool_decide as Hfd.
    + unfold bind. rewrite getFileDescriptor_eq by done; cbn.
      by destruct (fileDescriptors w !! fd); cbn; [intros r |].
    + cbn. by intros [fh | err]; cbn; [intros r1 r2; cbn |].
  - (* Read *)
    unfold Read, bind. rewrite getFileDescriptor_eq by done; cbn.
    destruct (fileDescriptors w !! fd); cbn; [| done].
    intros [[buff' n] err]; cbn. by destruct (_ || _).
  - (* Write *)
    unfold Write, bind.
    destruct (fileDescriptors w !! fd) as [fh |] eqn:Hfd.
    + destruct (getFileDescriptorWithLock_present fd fh w Hc Hfd)
        as (l & Hwl & Hm & ->); cbn.
      destruct (is_WriterAt fh); cbn.
      * rewrite Mutex_Unlock_held by done; cbn.
        by intros [n [err |]].
      * unfold defer; cbn. intros [n [err |]]; cbn.
        -- by rewrite Mutex_Unlock_held.
        -- by intros [n' [err |]]; cbn; rewrite Mutex_Unlock_held.
    + rewrite getFileDescriptorWithLock_absent by done; cbn.
      intros _. by exists path, buff, ofst, fd.
  - (* Release *)
    destruct Hc as [Hfree Hkeys Hlocks Hg].
    destruct w as [caps [lk] fds n wl ms ug tn]; simpl in *; subst lk ug.
    cbn. by destruct (fds !! fd) as [fh |] eqn:Hfd; cbn; [intros r |].
  - (* Opendir *)
    unfold bind. by rewrite Opendir_eq.
  - (* Readdir *)
    unfold Readdir, bind, capabilities; cbn.
    destruct (has_Dir (underlying w)); cbn; [| done].
    intros [entries | err]; cbn; [| done].
    apply post_bind. apply post_bind.
    eapply post_mono; [| apply for_range_fill_post].
    by intros t ow [-> _].
Qed.

(** X10: started between two callbacks, a callback panics exactly when
    it is [Write] with a handle that is not in the file table; every
    other callback, and [Write] with a handle of the table, returns. *)
Theorem only_Write_panics {U} (h : handler U) (u : U) (w : wrapper) (o : op) :
  consistent w ->
  (run h (exec o w) u).1.1.1 = Panics <->
  exists path buff ofst fd,
    o = op_Write path buff ofst fd /\ fileDescriptors w !! fd = None.
Proof.
  intros Hc. split.
  - pose proof (post_run _ _ (exec_panics o w Hc) U h u) as Hp.
    by destruct (run h (exec o w) u) as [[[out w'] u'] t].
  - intros (path & buff & ofst & fd & -> & Hfd).
    unfold exec, fmap_M, bind. rewrite run_bind.
    by rewrite Write_absent_panics.
Qed.

(** ** Error codes and mode bits *)

(** X12: on a platform whose errno values are positive, [convertError]
    never returns a positive code, and it returns 0 for the nil error
    only: a failure is never reported as success. *)
Theorem convertError_zero_only_for_nil (err : option error) :
  0 < fuse_EEXIST -> 0 < fuse_ENOENT -> 0 < fuse_EPERM ->
  0 < fuse_EINVAL -> 0 < fuse_EIO ->
  convertError err <= 0 /\ (convertError err = 0 <-> err = None).
Proof.
  intros H1 H2 H3 H4 H5. unfold convertError.
  destruct err as [e |]; [| done].
  destruct (os_IsExist e), (os_IsNotExist e), (os_IsPermission e),
    (errors_Is e os_ErrInvalid || errors_Is e os_ErrClosed);
    (split; [lia | split; [lia | done]]).
Qed.

Lemma lor_below_pow2 (a b n : Z) :
  0 <= n -> 0 <= a < 2 ^ n -> 0 <= b < 2 ^ n -> 0 <= Z.lor a b < 2 ^ n.
Proof.
  intros Hn Ha Hb. split; [apply Z.lor_nonneg; lia |].
  destruct (decide (Z.lor a b = 0)) as [-> | Hz]; [lia |].
  assert (0 < Z.lor a b) as Hpos.
  { assert (0 <= Z.lor a b) by (apply Z.lor_nonneg; lia). lia. }
  apply Z.log2_lt_pow2; [done |].
  rewrite Z.log2_lor by lia.
  destruct (decide (a = 0)) as [-> | Ha0];
    destruct (decide (b = 0)) as [-> | Hb0].
  - done.
  - rewrite Z.max_r by apply Z.log2_nonneg.
    apply Z.log2_lt_pow2; lia.
  - rewrite Z.max_l by apply Z.log2_nonneg.
    apply Z.log2_lt_pow2; lia.
  - apply Z.max_lub_lt; apply Z.log2_lt_pow2; lia.
Qed.

(** X13: whatever mode a metadata record reports, the mode that
    [fileInfoToStat] stores fits the 32 bits of the field, for a
    directory bit that is a 32-bit constant. *)
Theorem fileInfoToStat_mode_fits (fi : FileInfo) :
  0 <= fuse_S_IFDIR < 2 ^ 32 ->
  0 <= st_Mode (fileInfoToStat fi) < 2 ^ 32.
Proof.
  intros Hs. unfold fileInfoToStat.
  assert (0 <= uint32 (Mode fi) < 2 ^ 32) as Hm
      by (apply Z.mod_pos_bound; lia).
  destruct (IsDir fi); simpl; [| done].
  by apply lor_below_pow2.
Qed.

(** ** The two handle values that never name a file *)

Lemma sound_from_below (w : wrapper) (ss : list step) (top : Z) :
  consistent w -> issued w ->
  sound_from w ss ->
  top <= 2 ^ 64 ->
  nextFd w + Z.of_nat (length (handles ss)) < top ->
  Forall
    (fun s =>
       issued (step_after s) /\
       nextFd (step_after s) < top /\
       (forall fd, step_handle s = Some fd -> 0 < fd < top)) ss.
Proof.
  intros Hc Hi Hs Htop. revert Hc Hi.
  induction Hs as [w | w s ss Hw He Hs IH]; intros Hc Hi Hbound.
  - constructor.
  - subst w. pose proof (effect_step_handle _ _ _ He) as Hh.
    pose proof (effect_consistent _ _ _ _ _ Hc He) as Hc'.
    pose proof Hi as [Hn Hk].
    rewrite handles_cons in Hbound.
    destruct (step_handle s) as [fd |] eqn:Hsh.
    + destruct Hh as [Hfd Hnext]. simpl in Hbound.
      unfold uint64 in Hfd. rewrite Z.mod_small in Hfd by lia.
      assert (issued (step_after s)) as Hi'
          by (eapply effect_issued; [done | lia | lia | done]).
      constructor; [| apply IH; [done | done | lia]].
      split; [done |]. split; [lia |].
      intros k Hk'. assert (k = fd) as -> by congruence. lia.
    + pose proof (effect_no_handle _ _ _ He Hsh) as Hna.
      assert (issued (step_after s)) as Hi'
          by (eapply effect_issued; [done | lia | by rewrite Hna | done]).
      constructor; [| apply IH; [done | done | lia]].
      split; [done |]. split; [lia |]. congruence.
Qed.

(** X14: in a session that allocates fewer than 2^64 - 1 handles,
    neither 0, the handle that a failed [Create] or [Open] returns, nor
    the "no handle" value of [Truncate] is ever allocated, and neither
    is ever a key of the file table. *)
Theorem zero_and_no_handle_name_no_file {U} (h : handler U)
  (caps : Capabilities) (ops : list op) (u : U) :
  Z.of_nat (length (handles (session h caps ops u))) < 2 ^ 64 - 1 ->
  Forall
    (fun s =>
       step_handle s <> Some 0 /\
       step_handle s <> Some no_handle /\
       fileDescriptors (step_after s) !! 0 = None /\
       fileDescriptors (step_after s) !! no_handle = None)
    (session h caps ops u).
Proof.
  intros Hbound.
  eapply Forall_impl;
    [apply (sound_from_below (New caps) _ (2 ^ 64 - 1));
       [apply New_consistent | apply New_issued | apply session_sound
       | lia | done] |].
  intros s ([Hn Hk] & Hlt & Hh). cbv beta.
  assert (no_handle = 2 ^ 64 - 1) as Hno by reflexivity.
  split; [| split; [| split]].
  - intros Hs. specialize (Hh _ Hs). lia.
  - intros Hs. specialize (Hh _ Hs). lia.
  - apply not_elem_of_dom. intros Hin. specialize (Hk _ Hin). lia.
  - apply not_elem_of_dom. intros Hin. specialize (Hk _ Hin). lia.
Qed.

(** ** The write lock and the table lock *)

Lemma getFileDescriptor_unlocked (fd : Z) (w : wrapper) :
  locked (fdMtx w) = false ->
  getFileDescriptor fd w =
  Ret (Returns (fileDescriptors w !! fd), at_release w).
Proof.
  intros Hfree.
  destruct w as [caps [lk] fds n wl ms ug tn]; simpl in *; subst lk.
  unfold getFileDescriptor, bind, defer; cbn.
  unfold at_release, keys_agree; cbn. by case_bool_decide.
Qed.

Lemma getFileDescriptor_locked (fd : Z) (w : wrapper) :
  locked (fdMtx w) = true ->
  getFileDescriptor fd w = Ret (Blocks, w).
Proof.
  intros Hheld.
  destruct w as [caps [lk] fds n wl ms ug tn]; simpl in *; subst lk.
  reflexivity.
Qed.

(** X15: [Write] asks for the handle's write lock while it holds the
    table lock.  So when another writer holds that write lock, [Write]
    waits with the table lock held, without having called anything, and
    [Read], [Truncate] through a handle, [Release] and [Opendir] started
    then, on whatever handle, wait as well. *)
Theorem waiting_writer_holds_the_table_lock {U} (h : handler U) (u : U)
  (w : wrapper) (path : string) (buff : list Byte.byte) (ofst fd : Z)
  (l : nat) :
  locked (fdMtx w) = false ->
  writeLocks w !! fd = Some l ->
  mutexes w !! l = Some held_Mutex ->
  let w' := set_fdMtx held_Mutex w in
  run h (Write path buff ofst fd w) u = (Blocks, w', u, []) /\
  (forall path' buff' ofst' fd',
     run h (Read path' buff' ofst' fd' w') u = (Blocks, w', u, [])) /\
  (forall path' size fd',
     fd' <> no_handle ->
     run h (Truncate path' size fd' w') u = (Blocks, w', u, [])) /\
  (forall path' fd', run h (Release path' fd' w') u = (Blocks, w', u, [])) /\
  (forall path', run h (Opendir path' w') u = (Blocks, w', u, [])).
Proof.
  intros Hfree Hwl Hm w'. split; [| split; [| split; [| split]]].
  - subst w'.
    destruct w as [caps [lk] fds n wl ms ug tn]; simpl in *; subst lk.
    unfold Write, bind, getFileDescriptorWithLock, defer, bind; cbn.
    rewrite Hwl; cbn. by rewrite Hm.
  - intros. unfold Read, bind. by rewrite getFileDescriptor_locked.
  - intros path' size fd' Hne. unfold Truncate.
    rewrite bool_decide_true by done.
    unfold bind. by rewrite getFileDescriptor_locked.
  - intros. subst w'. by destruct w as [caps [lk] fds n wl ms ug tn].
  - intros. subst w'. by destruct w as [caps [lk] fds n wl ms ug tn].
Qed.

(** X16: [Read] and [Truncate] take the table lock only, never a write
    lock: with the table lock free they go through whatever the state
    of the write locks, also while a writer holds the lock of the very
    handle they use.  They leave the wrapper as it was; only for a
    wrapper whose two maps differ in keys, which no session reaches,
    the end of their critical section sets the ghost flag. *)
Theorem Read_and_Truncate_skip_the_write_lock {U} (h : handler U) (u : U)
  (w : wrapper) (path : string) (buff : list Byte.byte) (ofst size fd : Z)
  (fh : File) :
  locked (fdMtx w) = false ->
  fileDescriptors w !! fd = Some fh ->
  fd <> no_handle ->
  (let '(buff', n, err, u1) := h (File_ReadAt fh buff ofst) u in
   run h (Read path buff ofst fd w) u =
   (Returns (Read_reports n err, buff'), at_release w, u1,
    [Ev (File_ReadAt fh buff ofst) (buff', n, err)])) /\
  (let '(terr, u1) := h (File_Truncate fh size) u in
   run h (Truncate path size fd w) u =
   (Returns (convertError terr), at_release w, u1,
    [Ev (File_Truncate fh size) terr])) /\
  (dom (fileDescriptors w) = dom (writeLocks w) -> at_release w = w).
Proof.
  intros Hfree Hfd Hne. split; [| split; [| apply at_release_agree]].
  - destruct (h (File_ReadAt fh buff ofst) u) as [[[buff' n] err] u1] eqn:Hr.
    unfold Read, bind. rewrite getFileDescriptor_unlocked by done; cbn.
    rewrite Hfd; cbn. rewrite Hr; cbn. unfold Read_reports.
    destruct (Z.ltb_spec 0 n) as [Hn | Hn]; cbn.
    + case_decide as H; [done |]. destruct H. by left.
    + case_bool_decide as He; cbn.
      * case_decide as H; [done |]. destruct H. by right.
      * case_decide as H; [| done]. destruct H as [H | H]; [lia | done].
  - destruct (h (File_Truncate fh size) u) as [terr u1] eqn:Ht.
    unfold Truncate. rewrite bool_decide_true by done.
    unfold bind. rewrite getFileDescriptor_unlocked by done; cbn.
    rewrite Hfd; cbn. by rewrite Ht.
Qed.

(** ** One write lock per handle *)

Lemma effect_own_lock (w w' : wrapper) (o : op) (t : list event)
  (r : outcome retval) :
  consistent w ->
  (forall fd1 fd2 l,
     writeLocks w !! fd1 = Some l -> writeLocks w !! fd2 = Some l ->
     fd1 = fd2) ->
  effect w o t r w' ->
  forall fd1 fd2 l,
    writeLocks w' !! fd1 = Some l -> writeLocks w' !! fd2 = Some l ->
    fd1 = fd2.
Proof.
  intros Hc Hinj He.
  destruct He as [r _ _ _ | path fd fh n _ _ | fd _ _ | fd fh _ _];
    simpl; intros fd1 fd2 l H1 H2.
  - eauto.
  - apply lookup_delete_Some in H1 as [_ H1].
    apply lookup_delete_Some in H2 as [_ H2]. eauto.
  - eauto.
  - apply lookup_insert_Some in H1 as [[<- <-] | [Hne1 H1]];
      apply lookup_insert_Some in H2 as [[<- H2] | [Hne2 H2]].
    + done.
    + apply (locks_free _ Hc) in H2. apply lookup_lt_Some in H2. lia.
    + apply (locks_free _ Hc) in H1. apply lookup_lt_Some in H1. lia.
    + eauto.
Qed.

Lemma sound_from_own_lock (w : wrapper) (ss : list step) :
  consistent w ->
  (forall fd1 fd2 l,
     writeLocks w !! fd1 = Some l -> writeLocks w !! fd2 = Some l ->
     fd1 = fd2) ->
  sound_from w ss ->
  Forall
    (fun s =>
       forall fd1 fd2 l,
         writeLocks (step_after s) !! fd1 = Some l ->
         writeLocks (step_after s) !! fd2 = Some l ->
         fd1 = fd2) ss.
Proof.
  intros Hc Hinj Hs. revert Hc Hinj.
  induction Hs as [w | w s ss Hw He Hs IH]; intros Hc Hinj.
  - constructor.
  - subst w.
    pose proof (effect_own_lock _ _ _ _ _ Hc Hinj He) as Hinj'.
    constructor; [done |].
    apply IH; [by eapply effect_consistent | done].
Qed.

(** X17: at every point of every session, two different handles of the
    table have two different write locks, also after the counter has
    wrapped. *)
Theorem each_handle_has_its_own_lock {U} (h : handler U)
  (caps : Capabilities) (ops : list op) (u : U) :
  Forall
    (fun s =>
       forall fd1 fd2 l,
         writeLocks (step_after s) !! fd1 = Some l ->
         writeLocks (step_after s) !! fd2 = Some l ->
         fd1 = fd2)
    (session h caps ops u).
Proof.
  apply (sound_from_own_lock (New caps)).
  - apply New_consistent.
  - intros fd1 fd2 l H1. simpl in H1. by rewrite lookup_empty in H1.
  - apply session_sound.
Qed.

(** ** Callbacks that do not use the table *)

Lemma exec_without_table (o : op) (w : wrapper) :
  takes_table_lock o = false ->
  post (exec o w) (fun t ow => exists r, ow = (Returns r, w)).
Proof.
  intros Ho. destruct o; try discriminate Ho; unfold exec, fmap_M.
  all: try (cbn; answer_all; by eexists).
  - (* Truncate with the "no handle" value *)
    simpl in Ho. unfold Truncate. rewrite Ho. cbn.
    intros [fh | err]; cbn; [intros r1 r2; cbn |]; by eexists.
  - (* Readdir *)
    unfold Readdir, bind, capabilities; cbn.
    destruct (has_Dir (underlying w)); cbn; [| by eexists].
    intros [entries | err]; cbn; [| by eexists].
    apply post_bind. apply post_bind.
    eapply post_mono; [| apply for_range_fill_post].
    intros t ow [-> _]; cbn. by eexists.
Qed.

(** X18: the callbacks that work on paths only ([Getattr], [Unlink],
    [Rmdir], [Rename], [Mkdir], [Readdir], the link and attribute
    callbacks, [Truncate] with the "no handle" value, and the ones that
    are not implemented) never take the table lock: in every state of
    the wrapper, also while a waiting writer holds the table lock, they
    return and leave the wrapper as it was. *)
Theorem path_callbacks_never_wait {U} (h : handler U) (u : U) (w : wrapper)
  (o : op) :
  takes_table_lock o = false ->
  exists r, (run h (exec o w) u).1.1 = (Returns r, w).
Proof.
  intros Ho.
  pose proof (post_run _ _ (exec_without_table o w Ho) U h u) as Hp.
  by destruct (run h (exec o w) u) as [[ow u'] t].
Qed.

(** ** The keys of the file table *)

Lemma exec_table (o : op) (w : wrapper) :
  consistent w ->
  post (exec o w)
    (fun t ow =>
       dom (fileDescriptors ow.2) =
       table_after (dom (fileDescriptors w))
         {| step_op := o; step_before := w; step_events := t;
            step_outcome := ow.1; step_after := ow.2 |}).
Proof.
  intros Hc. destruct o; unfold exec, fmap_M.
  all: try (cbn; answer_all; done).
  - (* Create *)
    unfold Create, bind, ask; cbn. intros [fh | err]; cbn; [| done].
    rewrite createFileDescriptor_eq by done; cbn.
    unfold table_after; cbn. by rewrite dom_insert_L.
  - (* Open *)
    unfold Open, bind, ask; cbn. intros [fh | err]; cbn; [| done].
    rewrite createFileDescriptor_eq by done; cbn.
    unfold table_after; cbn. by rewrite dom_insert_L.
  - (* Truncate *)
    unfold Truncate. case_bool_decide as Hfd.
    + unfold bind. rewrite getFileDescriptor_eq by done; cbn.
      by destruct (fileDescriptors w !! fd); cbn; [intros r |].
    + cbn. by intros [fh | err]; cbn; [intros r1 r2; cbn |].
  - (* Read *)
    unfold Read, bind. rewrite getFileDescriptor_eq by done; cbn.
    destruct (fileDescriptors w !! fd); cbn; [| done].
    intros [[buff' n] err]; cbn. by destruct (_ || _).
  - (* Write *)
    unfold Write, bind.
    destruct (fileDescriptors w !! fd) as [fh |] eqn:Hfd.
    + destruct (getFileDescriptorWithLock_present fd fh w Hc Hfd)
        as (l & Hwl & Hm & ->); cbn.
      destruct (is_WriterAt fh); cbn.
      * rewrite Mutex_Unlock_held by done; cbn.
        by intros [n [err |]].
      * unfold defer; cbn. intros [n [err |]]; cbn.
        -- by rewrite Mutex_Unlock_held.
        -- by intros [n' [err |]]; cbn; rewrite Mutex_Unlock_held.
    + by rewrite getFileDescriptorWithLock_absent.
  - (* Release *)
    destruct Hc as [Hfree Hkeys Hlocks Hg].
    destruct w as [caps [lk] fds n wl ms ug tn]; simpl in *; subst lk ug.
    cbn. destruct (fds !! fd) as [fh |] eqn:Hfd; cbn.
    + intros r. close_section Hkeys.
      unfold table_after; cbn. by rewrite dom_delete_L.
    + close_section Hkeys.
      unfold table_after; cbn. apply not_elem_of_dom in Hfd.
      apply set_eq. intros k. rewrite elem_of_difference, elem_of_singleton.
      split; [| by intros [? _]]. intros Hk. split; [done |].
      by intros ->.
  - (* Opendir *)
    unfold bind. by rewrite Opendir_eq.
  - (* Readdir *)
    unfold Readdir, bind, capabilities; cbn.
    destruct (has_Dir (underlying w)); cbn; [| done].
    intros [entries | err]; cbn; [| done].
    apply post_bind. apply post_bind.
    eapply post_mono; [| apply for_range_fill_post].
    by intros t ow [-> _].
Qed.

Lemma run_ops_table {U} (h : handler U) (ops : list op) (w : wrapper)
  (u : U) :
  consistent w ->
  dom (fileDescriptors (run_ops h ops w u).1.2) =
  foldl table_after (dom (fileDescriptors w)) (run_ops h ops w u).1.1.
Proof.
  revert w u. induction ops as [| o ops IH]; intros w u Hc; simpl.
  - done.
  - pose proof (post_run _ _ (exec_effect o w Hc) U h u) as He.
    pose proof (post_run _ _ (exec_table o w Hc) U h u) as Ht.
    destruct (run h (exec o w) u) as [[[r w1] u1] t]; simpl in He, Ht.
    specialize (IH w1 u1 (effect_consistent _ _ _ _ _ Hc He)).
    destruct (run_ops h ops w1 u1) as [[ss w2] u2]; simpl in *.
    by rewrite IH, Ht.
Qed.

(** X19: after any session, the keys of the file table are exactly the
    handles that [Create] and [Open] returned on success and that
    [Release] has not been called with since; [Opendir] adds none, and
    no other callback adds or removes one. *)
Theorem table_holds_the_open_handles {U} (h : handler U)
  (caps : Capabilities) (ops : list op) (u : U) :
  dom (fileDescriptors (run_ops h ops (New caps) u).1.2) =
  open_handles (session h caps ops u).
Proof.
  unfold open_handles, session.
  rewrite run_ops_table by apply New_consistent.
  by replace (dom (fileDescriptors (New caps))) with (∅ : gset Z)
    by (symmetry; apply dom_empty_L).
Qed.

End Coverage.

(** * The theorems at concrete inputs *)

#[local] Existing Instances Fixture.linux Fixture.go_errors Fixture.mem_files.
#[local] Open Scope string_scope.

(** C1: after [Create] and [Release] of the handle it returned, [Write]
    with that handle does not return -EINVAL: the handle has no write
    lock any more, [w.writeLocks[fd]] is nil, and [Lock] panics before
    the test of [ok] is reached. *)
Theorem Write_after_Release_panics :
  map step_outcome
    (session (Fixture.scripted Fixture.all_good) Fixture.all_caps
       [op_Create "/a" 2 420; op_Release "/a" 1; op_Write "/a" [] 0 1] tt) =
  [Returns (rv_int_fd 0 1); Returns (rv_int 0); Panics].
Proof. vm_compute. reflexivity. Qed.

(** C2 fails where the listing fails: for a directory that does not
    exist [Readdir] returns -ENOENT, not -ENOSYS. *)
Lemma Readdir_failed_listing_is_not_ENOSYS :
  has_Dir (underlying (New Fixture.all_caps)) = true /\
  (run (Fixture.scripted Fixture.no_such_dir)
     (Readdir "/missing" 0 0 (New Fixture.all_caps)) tt).1.1.1 =
  Returns (- fuse_ENOENT) /\
  - fuse_ENOENT <> - fuse_ENOSYS.
Proof. split; [reflexivity |]. split; [reflexivity | discriminate]. Qed.

(** C7 fails where only the close fails: with the open and the
    truncation good and [Close] answering a permission error, [Truncate]
    returns 0, the code of success, and the failure is not reported. *)
Lemma Truncate_drops_a_failed_Close :
  run (Fixture.scripted Fixture.close_fails)
    (Truncate "/a" 0 no_handle (New Fixture.all_caps)) tt =
  (Returns 0, New Fixture.all_caps, tt,
   [Ev (Basic_OpenFile "/a" os_O_WRONLY perm_0777) (inl Fixture.the_file);
    Ev (File_Truncate Fixture.the_file 0) None;
    Ev (File_Close Fixture.the_file) (Some Fixture.ErrPermission)]) /\
  convertError (Some Fixture.ErrPermission) = - fuse_EPERM /\
  - fuse_EPERM <> 0.
Proof. split; [reflexivity |]. split; [reflexivity | discriminate]. Qed.

(** Why the bound on the number of allocations is there: the counter is
    a [uint64], and the last of 2^64 + 1 calls of [Opendir], more than a
    mount sees in its lifetime, would return the handle that the first
    one returned. *)
Lemma handles_repeat_after_wrap :
  ~ NoDup
      (handles
         (session (Fixture.scripted Fixture.all_good) Fixture.all_caps
            (repeat (op_Opendir "/") (Z.to_nat (2 ^ 64 + 1))) tt)).
Proof. apply Opendir_repeats_a_handle. rewrite Z2Nat.id; lia. Qed.

(** ** Instances of the theorems *)

Lemma with_file_consistent : consistent Fixture.with_file.
Proof.
  apply (effect_consistent (New Fixture.all_caps) _ (op_Opendir "") []
           (Returns (rv_int_fd 0 1))); [apply New_consistent |].
  by apply effect_register.
Qed.

Lemma dir_tree_succeeds_on_directories (u0 : list string) (p : string)
  (perm : Z) :
  Fixture.is_dir u0 p = true ->
  (Fixture.dir_tree (Dir_MkdirAll p perm) u0).1 = None.
Proof. reflexivity. Qed.

Lemma dir_tree_creates_parents (u0 : list string) (p : string) (perm : Z)
  (d : string) :
  (Fixture.dir_tree (Dir_MkdirAll p perm) u0).1 = None ->
  In d (Fixture.dirs_of p) ->
  Fixture.is_dir (Fixture.dir_tree (Dir_MkdirAll p perm) u0).2 d = true.
Proof.
  intros _ Hd. unfold Fixture.is_dir; simpl.
  apply existsb_exists. exists d. split.
  - apply in_or_app. by left.
  - apply String.eqb_refl.
Qed.

Lemma convertError_classifies_witness :
  classified (Some Fixture.ErrNotExist) NotFound /\
  convertError (Some Fixture.ErrNotExist) = - fuse_ENOENT.
Proof.
  assert (classified (Some Fixture.ErrNotExist) NotFound) as H
      by (apply (is_NotFound (GE := Fixture.go_errors)); reflexivity).
  split; [exact H |].
  exact (proj1 (convertError_classifies _ _ H)).
Defined.

Lemma fileInfoToStat_fields_witness :
  0 <= Mode Fixture.entry_d < 2 ^ 32 /\
  st_Mode (fileInfoToStat Fixture.entry_d) = Z.lor 493 fuse_S_IFDIR /\
  Z.land (st_Mode (fileInfoToStat Fixture.entry_d)) fuse_S_IFDIR =
  fuse_S_IFDIR.
Proof.
  assert (0 <= Mode Fixture.entry_d < 2 ^ 32) as H by (simpl; lia).
  pose proof (fileInfoToStat_fields Fixture.entry_d H) as HH.
  cbv zeta in HH. destruct HH as (_ & _ & _ & Hm & Hd & _).
  split; [exact H |]. split; [exact Hm | exact (Hd eq_refl)].
Defined.

Lemma Readdir_result_witness :
  has_Dir (underlying (New Fixture.all_caps)) = true /\
  let '(out, w', u', t) :=
    run (Fixture.scripted Fixture.all_good)
      (Readdir "/" 0 0 (New Fixture.all_caps)) tt in
  w' = New Fixture.all_caps /\
  out = Returns (- fuse_ENOSYS) /\
  map event_call t =
  [Dir_ReadDir "/";
   fill "a" (fileInfoToStat Fixture.entry_a) 0;
   fill "d" (fileInfoToStat Fixture.entry_d) 0].
Proof.
  split; [reflexivity |].
  exact (Readdir_result (Fixture.scripted Fixture.all_good) tt
           (New Fixture.all_caps) "/" 0 0 eq_refl).
Defined.

Lemma Truncate_paths_witness :
  consistent (New Fixture.all_caps) /\
  run (Fixture.scripted Fixture.all_good)
    (Truncate "/a" 0 no_handle (New Fixture.all_caps)) tt =
  (Returns 0, New Fixture.all_caps, tt,
   [Ev (Basic_OpenFile "/a" os_O_WRONLY perm_0777) (inl Fixture.the_file);
    Ev (File_Truncate Fixture.the_file 0) None;
    Ev (File_Close Fixture.the_file) None]).
Proof.
  split; [apply New_consistent |].
  exact (proj2 (Truncate_paths (Fixture.scripted Fixture.all_good) tt
                  (New Fixture.all_caps) "/a" 0 no_handle
                  (New_consistent Fixture.all_caps))).
Defined.

Lemma Read_result_witness :
  consistent Fixture.with_file /\
  run (Fixture.scripted Fixture.no_such_dir)
    (Read "/a" [] 0 1 Fixture.with_file) tt =
  (Returns (0, []), Fixture.with_file, tt,
   [Ev (File_ReadAt Fixture.the_file [] 0) ([], 0, Some Fixture.EOF)]).
Proof.
  split; [apply with_file_consistent |].
  exact (proj2 (Read_result (Fixture.scripted Fixture.no_such_dir) tt
                  Fixture.with_file "/a" [] 0 1 with_file_consistent)).
Defined.

Lemma Release_removes_witness :
  consistent Fixture.with_file /\
  fileDescriptors Fixture.with_file !! 1 = Some Fixture.the_file /\
  run (Fixture.scripted Fixture.close_fails)
    (Release "/a" 1 Fixture.with_file) tt =
  (Returns (- fuse_EPERM), released 1 Fixture.with_file, tt,
   [Ev (File_Close Fixture.the_file) (Some Fixture.ErrPermission)]) /\
  fileDescriptors (released 1 Fixture.with_file) !! 1 = None.
Proof.
  assert (fileDescriptors Fixture.with_file !! 1 = Some Fixture.the_file)
    as Hfd by reflexivity.
  pose proof (Release_removes (Fixture.scripted Fixture.close_fails) tt
                Fixture.with_file "/a" 1 Fixture.the_file
                with_file_consistent Hfd) as H.
  split; [apply with_file_consistent |]. split; [exact Hfd |].
  split; [exact (proj1 H) | exact (proj1 (proj2 H))].
Defined.

Lemma Mkdir_delegates_to_MkdirAll_witness :
  has_Dir (underlying (New Fixture.all_caps)) = true /\
  Fixture.is_dir ["/a"] "/a" = true /\
  let '(out, w', u', t) :=
    run Fixture.dir_tree (Mkdir "/a/b/c" 493 (New Fixture.all_caps)) ["/a"] in
  out = Returns 0 /\
  t = [Ev (Dir_MkdirAll "/a/b/c" 493) None] /\
  Fixture.is_dir u' "/a/b" = true /\
  Fixture.is_dir u' "/a/b/c" = true /\
  (run Fixture.dir_tree (Mkdir "/a" 493 (New Fixture.all_caps)) ["/a"]).1.1.1 =
  Returns 0.
Proof.
  split; [reflexivity |]. split; [reflexivity |].
  pose proof (Mkdir_delegates_to_MkdirAll Fixture.dir_tree Fixture.is_dir
                Fixture.dirs_of ["/a"] (New Fixture.all_caps) "/a/b/c" 493
                eq_refl dir_tree_succeeds_on_directories
                dir_tree_creates_parents) as H.
  pose proof (Mkdir_delegates_to_MkdirAll Fixture.dir_tree Fixture.is_dir
                Fixture.dirs_of ["/a"] (New Fixture.all_caps) "/a" 493
                eq_refl dir_tree_succeeds_on_directories
                dir_tree_creates_parents) as H'.
  vm_compute in H, H' |- *.
  destruct H as (Ht & _ & _ & _ & Hok & _).
  destruct H' as (_ & _ & _ & _ & _ & Hex).
  destruct (Hok eq_refl) as [Hout Hdirs].
  split; [exact Hout |]. split; [exact Ht |].
  split; [exact (Hdirs "/a/b" (or_intror (or_introl eq_refl))) |].
  split; [exact (Hdirs "/a/b/c"
                   (or_intror (or_intror (or_introl eq_refl)))) |].
  exact (Hex eq_refl).
Defined.

Lemma handles_distinct_below_wrap_witness :
  Z.of_nat
    (length
       (handles
          (session (Fixture.scripted Fixture.all_good) Fixture.all_caps
             Fixture.four_handles tt))) < 2 ^ 64 /\
  NoDup
    (handles
       (session (Fixture.scripted Fixture.all_good) Fixture.all_caps
          Fixture.four_handles tt)) /\
  handles
    (session (Fixture.scripted Fixture.all_good) Fixture.all_caps
       Fixture.four_handles tt) = [1; 2; 3; 4].
Proof.
  assert (Z.of_nat
            (length
               (handles
                  (session (Fixture.scripted Fixture.all_good)
                     Fixture.all_caps Fixture.four_handles tt))) < 2 ^ 64)
    as H by (vm_compute; reflexivity).
  split; [exact H |]. split; [| vm_compute; reflexivity].
  exact (proj1 (handles_distinct_below_wrap _ _ _ _ H)).
Defined.

(** ** Instances of the further theorems *)

Lemma with_plain_file_consistent : consistent Fixture.with_plain_file.
Proof.
  apply (effect_consistent (New Fixture.all_caps) _ (op_Opendir "") []
           (Returns (rv_int_fd 0 1))); [apply New_consistent |].
  by apply effect_register.
Qed.

Lemma one_is_not_no_handle : 1 <> no_handle.
Proof. vm_compute. discriminate. Qed.

Lemma missing_capability_is_ENOSYS_witness :
  has_Dir (underlying (New Fixture.no_caps)) = false /\
  has_Symlink (underlying (New Fixture.no_caps)) = false /\
  has_Change (underlying (New Fixture.no_caps)) = false /\
  Mkdir "/d" 493 (New Fixture.no_caps) =
    Ret (Returns (- fuse_ENOSYS), New Fixture.no_caps) /\
  Readlink "/l" (New Fixture.no_caps) =
    Ret (Returns (- fuse_ENOSYS, ""), New Fixture.no_caps) /\
  Utimens "/f" [] (New Fixture.no_caps) =
    Ret (Returns (- fuse_ENOSYS), New Fixture.no_caps).
Proof.
  destruct (missing_capability_is_ENOSYS (New Fixture.no_caps))
    as (Hd & Hs & Hc).
  destruct (Hd eq_refl) as [Hmkdir _].
  destruct (Hs eq_refl) as [_ Hreadlink].
  destruct (Hc eq_refl) as (_ & _ & Hutimens).
  do 3 (split; [reflexivity |]).
  split; [apply Hmkdir |]. split; [apply Hreadlink | apply Hutimens].
Defined.

Lemma Utimens_needs_two_timestamps_witness :
  has_Change (underlying (New Fixture.all_caps)) = true /\
  length [Timespec_zero] <> 2%nat /\
  run (Fixture.scripted Fixture.all_good)
    (Utimens "/f" [Timespec_zero] (New Fixture.all_caps)) tt =
  (Returns (- fuse_EINVAL), New Fixture.all_caps, tt, []).
Proof.
  assert (length [Timespec_zero] <> 2%nat) as Hlen by (simpl; lia).
  split; [reflexivity |]. split; [exact Hlen |].
  exact (proj1 (Utimens_needs_two_timestamps
                  (Fixture.scripted Fixture.all_good) tt
                  (New Fixture.all_caps) "/f" [Timespec_zero] eq_refl) Hlen).
Defined.

Lemma Create_registers_file_witness :
  consistent (New Fixture.all_caps) /\
  run (Fixture.scripted Fixture.all_good)
    (Create "/a" 2 420 (New Fixture.all_caps)) tt =
  (Returns (0, 1), Fixture.with_file, tt,
   [Ev (Basic_OpenFile "/a" 66 420) (inl Fixture.the_file)]).
Proof.
  split; [apply New_consistent |].
  pose proof (Create_registers_file (Fixture.scripted Fixture.all_good) tt
                (New Fixture.all_caps) "/a" 2 420
                (New_consistent Fixture.all_caps)) as H.
  cbv zeta in H. exact (proj1 H).
Defined.

Lemma Open_then_Read_witness :
  consistent (New Fixture.all_caps) /\
  run (Fixture.scripted Fixture.all_good)
    (Open "/a" 0 (New Fixture.all_caps)) tt =
  (Returns (0, 1), Fixture.with_file, tt,
   [Ev (Basic_OpenFile "/a" 0 perm_0777) (inl Fixture.the_file)]) /\
  run (Fixture.scripted Fixture.all_good)
    (Read "/a" [] 0 1 Fixture.with_file) tt =
  (Returns (5, []), Fixture.with_file, tt,
   [Ev (File_ReadAt Fixture.the_file [] 0) ([], 5, None)]).
Proof.
  split; [apply New_consistent |].
  exact (Open_then_Read (Fixture.scripted Fixture.all_good) tt
           (New Fixture.all_caps) "/a" 0 [] 0
           (New_consistent Fixture.all_caps)).
Defined.

Lemma Release_unknown_handle_witness :
  consistent (New Fixture.all_caps) /\
  fileDescriptors (New Fixture.all_caps) !! 5 = None /\
  run (Fixture.scripted Fixture.all_good)
    (Release "/a" 5 (New Fixture.all_caps)) tt =
  (Returns (- fuse_EINVAL), New Fixture.all_caps, tt, []).
Proof.
  split; [apply New_consistent |]. split; [reflexivity |].
  exact (Release_unknown_handle (Fixture.scripted Fixture.all_good) tt
           (New Fixture.all_caps) "/a" 5
           (New_consistent Fixture.all_caps) eq_refl).
Defined.

Lemma released_handle_is_invalid_witness :
  consistent Fixture.with_file /\
  fileDescriptors Fixture.with_file !! 1 = Some Fixture.the_file /\
  1 <> no_handle /\
  run (Fixture.scripted Fixture.close_fails)
    (Read "/a" [] 0 1 (released 1 Fixture.with_file)) tt =
  (Returns (- fuse_EINVAL, []), released 1 Fixture.with_file, tt, []) /\
  run (Fixture.scripted Fixture.close_fails)
    (Release "/a" 1 (released 1 Fixture.with_file)) tt =
  (Returns (- fuse_EINVAL), released 1 Fixture.with_file, tt, []).
Proof.
  split; [apply with_file_consistent |]. split; [reflexivity |].
  split; [apply one_is_not_no_handle |].
  pose proof (released_handle_is_invalid
                (Fixture.scripted Fixture.close_fails) tt Fixture.with_file
                "/a" 1 Fixture.the_file [] 0 0 with_file_consistent eq_refl
                one_is_not_no_handle) as H.
  split; [exact (proj1 H) | exact (proj2 (proj2 H))].
Defined.

Lemma Write_through_handle_witness :
  consistent Fixture.with_plain_file /\
  fileDescriptors Fixture.with_plain_file !! 1 = Some Fixture.plain_file /\
  run Fixture.seek_fails (Write "/a" [] 7 1 Fixture.with_plain_file) tt =
  (Returns (- fuse_EINVAL), Fixture.with_plain_file, tt,
   [Ev (File_Seek Fixture.plain_file 7 io_SeekStart)
      (0, Some Fixture.ErrInvalid)]).
Proof.
  split; [apply with_plain_file_consistent |]. split; [reflexivity |].
  exact (Write_through_handle Fixture.seek_fails tt Fixture.with_plain_file
           "/a" [] 7 1 Fixture.plain_file with_plain_file_consistent
           eq_refl).
Defined.

Lemma Opendir_handle_has_no_file_witness :
  consistent (New Fixture.all_caps) /\
  issued (New Fixture.all_caps) /\
  nextFd (New Fixture.all_caps) + 1 < 2 ^ 64 /\
  run (Fixture.scripted Fixture.all_good)
    (Opendir "/d" (New Fixture.all_caps)) tt =
  (Returns (0, 1), set_nextFd 1 (New Fixture.all_caps), tt, []) /\
  run (Fixture.scripted Fixture.all_good)
    (Read "/d" [] 0 1 (set_nextFd 1 (New Fixture.all_caps))) tt =
  (Returns (- fuse_EINVAL, []), set_nextFd 1 (New Fixture.all_caps), tt, []).
Proof.
  assert (nextFd (New Fixture.all_caps) + 1 < 2 ^ 64) as Hb by reflexivity.
  pose proof (Opendir_handle_has_no_file
                (Fixture.scripted Fixture.all_good) tt
                (New Fixture.all_caps) "/d" [] 0
                (New_consistent Fixture.all_caps)
                (New_issued Fixture.all_caps) Hb) as H.
  cbv zeta in H.
  split; [apply New_consistent |]. split; [apply New_issued |].
  split; [exact Hb |].
  split; [exact (proj1 H) | exact (proj2 (proj2 H))].
Defined.

Lemma callbacks_release_their_locks_witness :
  consistent (New Fixture.all_caps) /\
  let '(out, w', _, _) :=
    run (Fixture.scripted Fixture.all_good)
      (exec (op_Write "/a" [] 0 1) (New Fixture.all_caps)) tt in
  out <> Blocks /\ consistent w'.
Proof.
  split; [apply New_consistent |].
  exact (callbacks_release_their_locks (Fixture.scripted Fixture.all_good)
           tt (New Fixture.all_caps) (op_Write "/a" [] 0 1)
           (New_consistent Fixture.all_caps)).
Defined.

Lemma only_Write_panics_witness :
  consistent (New Fixture.all_caps) /\
  (run (Fixture.scripted Fixture.all_good)
     (exec (op_Write "/a" [] 0 1) (New Fixture.all_caps)) tt).1.1.1 = Panics /\
  (run (Fixture.scripted Fixture.all_good)
     (exec (op_Read "/a" [] 0 1) (New Fixture.all_caps)) tt).1.1.1 <> Panics.
Proof.
  split; [apply New_consistent |]. split.
  - apply (only_Write_panics (Fixture.scripted Fixture.all_good) tt
             (New Fixture.all_caps) (op_Write "/a" [] 0 1)
             (New_consistent Fixture.all_caps)).
    by exists "/a", [], 0, 1.
  - intros Hp.
    apply (only_Write_panics (Fixture.scripted Fixture.all_good) tt
             (New Fixture.all_caps) (op_Read "/a" [] 0 1)
             (New_consistent Fixture.all_caps)) in Hp.
    destruct Hp as (? & ? & ? & ? & Ho & _). discriminate Ho.
Defined.

Lemma other_callbacks_keep_the_wrapper_witness :
  consistent Fixture.with_file /\
  (run (Fixture.scripted Fixture.all_good)
     (exec (op_Read "/a" [] 0 1) Fixture.with_file) tt).1.1.2 =
  Fixture.with_file.
Proof.
  split; [apply with_file_consistent |].
  exact (other_callbacks_keep_the_wrapper
           (Fixture.scripted Fixture.all_good) tt Fixture.with_file
           (op_Read "/a" [] 0 1) with_file_consistent I).
Defined.

Lemma convertError_zero_only_for_nil_witness :
  0 < fuse_EEXIST /\ 0 < fuse_ENOENT /\ 0 < fuse_EPERM /\
  0 < fuse_EINVAL /\ 0 < fuse_EIO /\
  convertError (Some Fixture.ErrNoSpace) <= 0 /\
  convertError (Some Fixture.ErrNoSpace) <> 0.
Proof.
  assert (0 < fuse_EEXIST) as H1 by reflexivity.
  assert (0 < fuse_ENOENT) as H2 by reflexivity.
  assert (0 < fuse_EPERM) as H3 by reflexivity.
  assert (0 < fuse_EINVAL) as H4 by reflexivity.
  assert (0 < fuse_EIO) as H5 by reflexivity.
  destruct (convertError_zero_only_for_nil (GE := Fixture.go_errors)
              (Some Fixture.ErrNoSpace) H1 H2 H3 H4 H5) as [Hle Hiff].
  do 5 (split; [assumption |]). split; [exact Hle |].
  intros Hz. apply Hiff in Hz. discriminate Hz.
Defined.

Lemma fileInfoToStat_mode_fits_witness :
  0 <= fuse_S_IFDIR < 2 ^ 32 /\
  0 <= st_Mode (fileInfoToStat Fixture.entry_d) < 2 ^ 32.
Proof.
  assert (0 <= fuse_S_IFDIR < 2 ^ 32) as H by (simpl; lia).
  split; [exact H |].
  exact (fileInfoToStat_mode_fits Fixture.entry_d H).
Defined.

Lemma zero_and_no_handle_name_no_file_witness :
  Z.of_nat
    (length
       (handles
          (session (Fixture.scripted Fixture.all_good) Fixture.all_caps
             Fixture.four_handles tt))) < 2 ^ 64 - 1 /\
  Forall
    (fun s =>
       step_handle s <> Some 0 /\
       step_handle s <> Some no_handle /\
       fileDescriptors (step_after s) !! 0 = None /\
       fileDescriptors (step_after s) !! no_handle = None)
    (session (Fixture.scripted Fixture.all_good) Fixture.all_caps
       Fixture.four_handles tt).
Proof.
  assert (Z.of_nat
            (length
               (handles
                  (session (Fixture.scripted Fixture.all_good)
                     Fixture.all_caps Fixture.four_handles tt)))
          < 2 ^ 64 - 1) as H by (vm_compute; reflexivity).
  split; [exact H |].
  exact (zero_and_no_handle_name_no_file _ _ _ _ H).
Defined.

Lemma waiting_writer_holds_the_table_lock_witness :
  locked (fdMtx Fixture.mid_write) = false /\
  writeLocks Fixture.mid_write !! 1 = Some 0%nat /\
  mutexes Fixture.mid_write !! 0%nat = Some held_Mutex /\
  run (Fixture.scripted Fixture.all_good)
    (Write "/a" [] 0 1 Fixture.mid_write) tt =
  (Blocks, set_fdMtx held_Mutex Fixture.mid_write, tt, []) /\
  run (Fixture.scripted Fixture.all_good)
    (Read "/b" [] 0 2 (set_fdMtx held_Mutex Fixture.mid_write)) tt =
  (Blocks, set_fdMtx held_Mutex Fixture.mid_write, tt, []).
Proof.
  pose proof (waiting_writer_holds_the_table_lock
                (Fixture.scripted Fixture.all_good) tt Fixture.mid_write
                "/a" [] 0 1 0%nat eq_refl eq_refl eq_refl) as H.
  cbv zeta in H. destruct H as (Hw & Hr & _).
  do 3 (split; [reflexivity |]).
  split; [exact Hw | exact (Hr "/b" [] 0 2)].
Defined.

Lemma Read_and_Truncate_skip_the_write_lock_witness :
  locked (fdMtx Fixture.mid_write) = false /\
  fileDescriptors Fixture.mid_write !! 1 = Some Fixture.plain_file /\
  1 <> no_handle /\
  mutexes Fixture.mid_write !! 0%nat = Some held_Mutex /\
  run (Fixture.scripted Fixture.all_good)
    (Read "/a" [] 0 1 Fixture.mid_write) tt =
  (Returns (5, []), Fixture.mid_write, tt,
   [Ev (File_ReadAt Fixture.plain_file [] 0) ([], 5, None)]).
Proof.
  do 2 (split; [reflexivity |]). split; [apply one_is_not_no_handle |].
  split; [reflexivity |].
  exact (proj1 (Read_and_Truncate_skip_the_write_lock
                  (Fixture.scripted Fixture.all_good) tt Fixture.mid_write
                  "/a" [] 0 0 1 Fixture.plain_file eq_refl eq_refl
                  one_is_not_no_handle)).
Defined.

Lemma path_callbacks_never_wait_witness :
  takes_table_lock
    (op_Getattr "/a" Stat_zero 1) = false /\
  locked (fdMtx Fixture.writer_waiting) = true /\
  exists r,
    (run (Fixture.scripted Fixture.all_good)
       (exec (op_Getattr "/a" Stat_zero 1) Fixture.writer_waiting) tt).1.1 =
    (Returns r, Fixture.writer_waiting).
Proof.
  do 2 (split; [reflexivity |]).
  exact (path_callbacks_never_wait (Fixture.scripted Fixture.all_good) tt
           Fixture.writer_waiting (op_Getattr "/a" Stat_zero 1) eq_refl).
Defined.
